(** * Harmonic interpolator: damped-oscillator easing curve

    A shallow embedding of [main.c] of the harmonic interpolator and the
    properties of its core: the curve evaluator, the two closed-form solvers
    and the damping search.

    Modelling conventions.
    - A C [double] is read as a real number ([R] of the standard library), so
      [exp], [cos], [atan], [sqrt], [log], [fabs] and [M_PI] are the real
      functions [exp], [cos], [atan], [sqrt], [ln], [Rabs] and the constant
      [PI]; [pow (x, 2)] is [x ^ 2].  Rounding, infinities and NaN are not
      part of this reading.  Every theorem that divides, or takes a logarithm,
      assumes what makes the C expression well defined (a non-zero divisor, a
      positive argument), except where it is about the shape of the loop only.
    - Two comparisons of [calculate_gamma] are decided by rounding on extreme
      settings: the direction test of line 143 when the overshoot is within
      about [1e-7] of 1 (the difference [interpolation - overshoot] rounds to
      zero and the direction becomes -1), and the test of line 156 when the
      overshoot is below about [1e-12] (two successive deviations round to
      the same double and the loop stops early).  The properties that
      describe the direction, the accuracy and the resolution of the search
      are therefore stated for ordinary settings,
      [0.001 <= overshoot <= 0.99] and [0 <= rest_position_runs <= 1000],
      where rounding decides neither test.
    - The [while (true)] loop of [calculate_gamma] is a loop body on the pair
      of loop variables, iterated under a fuel bound: [None] means that the
      bound was reached before the [break].
    - The loop of [visualize_interpolation_cli] is modelled by the list of the
      texts its iterations print, under a fuel bound too; the sleep between
      two iterations is not part of the model. *)

From Stdlib Require Import ZArith Reals Lra Lia List Bool.
From Stdlib Require Import Ascii Zfloor Ranalysis5.
Import ListNotations.
Open Scope R_scope.

(** ** Data model *)

(** [struct interpolator_params]. *)
Record InterpolatorParams : Type := mkParams {
  omega : R;
  gamma : R
}.

(** [struct interpolator_settings]. *)
Record InterpolatorSettings : Type := mkSettings {
  overshoot : R;
  rest_position_runs : R
}.

(** ** Curve evaluator *)

Definition calculate_interpolation_raw (omega gamma time : R) : R :=
  1 - exp (- gamma * time) * cos (omega * time).

Definition calculate_interpolation (params : InterpolatorParams) (time : R) : R :=
  calculate_interpolation_raw (omega params) (gamma params) time.

(** The slope the header comment of [calculate_turning_time] sets to zero:
    [d/dt (1 - exp(-gamma t) cos(omega t))]. *)
Definition curve_slope (w g t : R) : R :=
  exp (- g * t) * (g * cos (w * t) + w * sin (w * t)).

(** ** Closed-form solvers *)

Definition calculate_omega (settings : InterpolatorSettings) : R :=
  let rest_position_runs := rest_position_runs settings in
  let full_oscillations := rest_position_runs / 2 + 0.75 in
  2 * PI * full_oscillations.

(** The argument of [atan] in [calculate_turning_time]. *)
Definition turning_arg (omega gamma : R) : R :=
  omega / gamma - sqrt (gamma ^ 2 + omega ^ 2) / gamma.

Definition calculate_turning_time (omega gamma : R) : R :=
  let turning_time :=
    2 * atan (omega / gamma - sqrt (gamma ^ 2 + omega ^ 2) / gamma) / omega
    + PI / omega in
  turning_time.

(** ** Damping search *)

Definition precision : R := 0.01.

(** The two variables the loop of [calculate_gamma] updates. *)
Record loop_state : Type := mkLoop {
  st_gamma : R;
  st_deviation : R
}.

Section DampingSearch.

Variable settings : InterpolatorSettings.
Variable omega : R.

(** Overshoot reached by a candidate damping: the curve at its turning
    time, minus the resting value 1 (lines 129-134 and 153-154). *)
Definition interpolation_at (gamma : R) : R :=
  calculate_interpolation_raw omega gamma (calculate_turning_time omega gamma) - 1.

Definition deviation_at (gamma : R) : R :=
  Rabs (overshoot settings - interpolation_at gamma).

(** Lines 119-124: the naive damping. *)
Definition naive_gamma : R :=
  let time := PI / omega in
  - ln (overshoot settings) / time.

(** Lines 129-135: the loop variables before the first iteration. *)
Definition initial_state : loop_state :=
  let gamma := naive_gamma in
  let adjusted_time := calculate_turning_time omega gamma in
  let interpolation := calculate_interpolation_raw omega gamma adjusted_time - 1 in
  let deviation := Rabs (overshoot settings - interpolation) in
  mkLoop gamma deviation.

(** Lines 143-145: the direction, fixed once. *)
Definition search_sign : R :=
  let gamma := naive_gamma in
  let adjusted_time := calculate_turning_time omega gamma in
  let interpolation := calculate_interpolation_raw omega gamma adjusted_time - 1 in
  if Rgt_dec (interpolation - overshoot settings) 0 then 1 else -1.

(** Line 152: the damping the next iteration tries. *)
Definition tuned_gamma_of (sign : R) (st : loop_state) : R :=
  st_gamma st + sign * precision.

(** Lines 152-159, one iteration: [Some] is the updated pair of loop
    variables, [None] is the [break]. *)
Definition loop_body (sign : R) (st : loop_state) : option loop_state :=
  let tuned_gamma := st_gamma st + sign * precision in
  let tuned_time := calculate_turning_time omega tuned_gamma in
  let tuned_interpolation :=
    calculate_interpolation_raw omega tuned_gamma tuned_time - 1 in
  let tuned_deviation := Rabs (overshoot settings - tuned_interpolation) in
  if Rlt_dec tuned_deviation (st_deviation st)
  then Some (mkLoop tuned_gamma tuned_deviation)
  else None.

(** Lines 151-163: the loop, and the value returned after the [break]. *)
Fixpoint tune (fuel : nat) (sign : R) (st : loop_state) : option R :=
  match fuel with
  | O => None
  | S fuel' =>
      match loop_body sign st with
      | Some st' => tune fuel' sign st'
      | None => Some (st_gamma st)
      end
  end.

(** The arguments [gamma] of the calls of [calculate_turning_time] made by
    the loop, in call order: one per iteration that runs. *)
Fixpoint tune_calls (fuel : nat) (sign : R) (st : loop_state) : list R :=
  match fuel with
  | O => []
  | S fuel' =>
      tuned_gamma_of sign st ::
      match loop_body sign st with
      | Some st' => tune_calls fuel' sign st'
      | None => []
      end
  end.

Definition calculate_gamma (fuel : nat) : option R :=
  tune fuel search_sign initial_state.

(** All calls of [calculate_turning_time] of [calculate_gamma]: the one of
    line 129 and those of the loop. *)
Definition calculate_gamma_calls (fuel : nat) : list R :=
  naive_gamma :: tune_calls fuel search_sign initial_state.

(** The state after [k] accepted steps, when there are that many. *)
Fixpoint state_after (k : nat) (sign : R) (st : loop_state) : option loop_state :=
  match k with
  | O => Some st
  | S k' =>
      match loop_body sign st with
      | Some st' => state_after k' sign st'
      | None => None
      end
  end.

(** What the loop maintains: [deviation] is the deviation of [gamma]. *)
Definition tracked (st : loop_state) : Prop :=
  st_deviation st = deviation_at (st_gamma st).

(** The [k]-th candidate: [k] steps of [sign * precision] from a start. *)
Fixpoint candidate (k : nat) (sign start : R) : R :=
  match k with
  | O => start
  | S k' => candidate k' sign start + sign * precision
  end.

End DampingSearch.

(** ** Parameter derivation *)

Definition calculate_params (fuel : nat) (settings : InterpolatorSettings)
  : option InterpolatorParams :=
  let omega := calculate_omega settings in
  match calculate_gamma settings omega fuel with
  | Some gamma => Some (mkParams omega gamma)
  | None => None
  end.

(** ** The diagnostic sampling of [test_interpolation] *)

(** The variables the sampling loop updates ([rest_position_counter] is an
    [int]; it never exceeds the number of samples). *)
Record sample_state : Type := mkSample {
  last_interpolation : R;
  rest_position_counter : Z;
  detected_overshoot : R
}.

(** Lines 205-209.  [test_precision] is initialised with the [float] literal
    [0.01f]: the binary32 number [0x3C23D70A = 10737418 / 2^30], a little
    below one hundredth, which the widening to [double] keeps. *)
Definition steps : R := 100.
Definition test_precision : R := 10737418 / 1073741824.
Definition sample_init : sample_state := mkSample (-1) 0 0.

(** Lines 212-231: the body of the sampling loop at index [i]. *)
Definition sample_step (params : InterpolatorParams) (st : sample_state) (i : nat)
  : sample_state :=
  let time := INR i / steps in
  let interpolation := calculate_interpolation params time in
  let normalized_interpolation := interpolation - 1 in
  let counter :=
    if Rlt_dec (last_interpolation st * normalized_interpolation) 0
    then (rest_position_counter st + 1)%Z
    else rest_position_counter st in
  let detected :=
    if Z_gt_dec counter 0
    then if Rlt_dec (Rabs (detected_overshoot st)) (Rabs normalized_interpolation)
         then normalized_interpolation
         else detected_overshoot st
    else detected_overshoot st in
  mkSample normalized_interpolation counter detected.

(** The loop variables after the iterations [i = 0 .. k - 1]. *)
Definition sample_state_at (params : InterpolatorParams) (k : nat) : sample_state :=
  fold_left (sample_step params) (seq 0 k) sample_init.

(** Lines 211-232: [for (i = 0; i < steps; i++)] with [steps = 100]. *)
Definition sample_loop (params : InterpolatorParams) : sample_state :=
  sample_state_at params 100.

(** The value [interpolation - 1] the loop looks at in iteration [i]. *)
Definition sample_value (params : InterpolatorParams) (i : nat) : R :=
  calculate_interpolation params (INR i / steps) - 1.

(** Sign changes of a sequence of signs ([true] is positive), as the loop
    counts them: the sign before sample 0 is that of [last_interpolation = -1]. *)
Definition sign_before (b : nat -> bool) (n : nat) : bool :=
  match n with
  | O => false
  | S m => b m
  end.

Fixpoint crossings (b : nat -> bool) (n : nat) : nat :=
  match n with
  | O => O
  | S m => (crossings b m + (if xorb (sign_before b m) (b m) then 1 else 0))%nat
  end.

(** The samples of the self-test at which the curve is above its rest
    position. *)
Definition positive_sample (i : nat) : bool :=
  ((10 <=? i) && (i <? 28) || (46 <=? i) && (i <? 64) || (82 <=? i) && (i <? 100))%nat.

(** Lines 235-250: the failure flag of the two checks. *)
Definition failure_flag (settings : InterpolatorSettings) (st : sample_state) : bool :=
  let f1 :=
    if Req_dec_T (IZR (rest_position_counter st - 1)) (rest_position_runs settings)
    then false else true in
  let f2 :=
    if Rgt_dec (Rabs (overshoot settings - detected_overshoot st)) test_precision
    then true else false in
  orb f1 f2.

(** Lines 187-192: the settings the self-test uses. *)
Definition test_settings : InterpolatorSettings := mkSettings 0.2 4.

(** Lines 331-334 of [main]. *)
Definition long_running_settings : InterpolatorSettings := mkSettings 0.85 16.

(** ** The command line visualisation *)

Definition MS_TO_NANO_MULTIPLIER : Z := 1000000.

(** [lround]: the nearest integer, halves away from zero (the range of
    [long] is not modelled). *)
Definition lround (x : R) : Z :=
  if Rle_dec 0 x then Zfloor (x + / 2) else (- Zfloor (- x + / 2))%Z.

(** Line 268. *)
Definition max_points : Z := 150.

(** Lines 276 and 300: [interval.tv_nsec] and the milliseconds added per
    iteration, an integer division. *)
Definition interval_tv_nsec : Z := (MS_TO_NANO_MULTIPLIER * 32)%Z.
Definition ms_per_frame : Z := (interval_tv_nsec / MS_TO_NANO_MULTIPLIER)%Z.

(** Lines 282-285: the number of fill characters of one iteration. *)
Definition frame_points (params : InterpolatorParams) (duration ms_running : R) : Z :=
  let normalized := ms_running / duration in
  let interpolated := calculate_interpolation params normalized in
  lround (IZR max_points * interpolated).

(** Lines 288-294: what one iteration prints, [points] times ['#'] (none
    when [points <= 0]), then a line feed or a carriage return. *)
Definition frame_text (points : Z) (running_mode : bool) : list ascii :=
  repeat "#"%char (Z.to_nat points)
  ++ [if running_mode then "010"%char else "013"%char].

(** Lines 280-301: the loop, as the list of the texts its iterations print;
    the sleep between two iterations is not modelled. *)
Fixpoint visualize_loop (fuel : nat) (params : InterpolatorParams)
    (duration : R) (running_mode : bool) (ms_running : R)
  : option (list (list ascii)) :=
  match fuel with
  | O => None
  | S fuel' =>
      if Rlt_dec ms_running duration
      then
        let points := frame_points params duration ms_running in
        match visualize_loop fuel' params duration running_mode
                (ms_running + IZR ms_per_frame) with
        | Some rest => Some (frame_text points running_mode :: rest)
        | None => None
        end
      else Some []
  end.

(** Lines 266-302: [visualize_interpolation_cli]; one bound serves both
    loops. *)
Definition visualize_interpolation_cli (fuel : nat) (settings : InterpolatorSettings)
    (duration : R) (running_mode : bool) : option (list (list ascii)) :=
  match calculate_params fuel settings with
  | Some params => visualize_loop fuel params duration running_mode 0
  | None => None
  end.

(** Lines 336-339 of [main]. *)
Definition typical_mobile_animation : InterpolatorSettings := mkSettings 0.25 4.

(** * Properties *)

(** ** Curve evaluator *)

Lemma interpolation_minus_one (w g t : R) :
  calculate_interpolation_raw w g t - 1 = - (exp (- g * t) * cos (w * t)).
Proof. unfold calculate_interpolation_raw. ring. Qed.

(** C6: at time 0 the curve is exactly 0, whatever omega and gamma are. *)
Theorem evaluate_at_zero :
  forall w g : R, calculate_interpolation_raw w g 0 = 0.
Proof.
  intros w g. unfold calculate_interpolation_raw.
  rewrite !Rmult_0_r, exp_0, cos_0. ring.
Qed.

(** C10: with gamma >= 0 and t >= 0 the curve stays in [0, 2]. *)
Theorem evaluate_range :
  forall w g t : R,
    0 <= g -> 0 <= t ->
    0 <= calculate_interpolation_raw w g t <= 2.
Proof.
  intros w g t Hg Ht. unfold calculate_interpolation_raw.
  assert (He0 : 0 < exp (- g * t)) by apply exp_pos.
  assert (He1 : exp (- g * t) <= 1).
  { rewrite <- exp_0.
    destruct (Req_dec (- g * t) 0) as [E | E].
    - rewrite E. apply Rle_refl.
    - left. apply exp_increasing.
      assert (0 <= g * t) by (apply Rmult_le_pos; assumption). lra. }
  destruct (COS_bound (w * t)) as [Hc1 Hc2].
  split; nra.
Qed.

Lemma evaluate_range_witness :
  0 <= 2 /\ 0 <= 3 /\ 0 <= calculate_interpolation_raw 1 2 3 <= 2.
Proof.
  split; [lra |]. split; [lra |]. apply (evaluate_range 1 2 3); lra.
Defined.

(** ** Frequency *)

(** C7: the frequency is [2 PI (rest_position_runs / 2 + 0.75)], which is
    [1.5 PI] when there are no runs through the rest position. *)
Theorem calculate_omega_formula :
  (forall s : InterpolatorSettings,
      calculate_omega s = 2 * PI * (rest_position_runs s / 2 + 0.75)) /\
  (forall os : R, calculate_omega (mkSettings os 0) = 1.5 * PI).
Proof.
  split; intros s; unfold calculate_omega; simpl.
  - reflexivity.
  - lra.
Qed.

(** ** Shape of the damping search *)

Section SearchShape.

Variable settings : InterpolatorSettings.
Variable w : R.

Lemma initial_state_tracked : tracked settings w (initial_state settings w).
Proof. reflexivity. Qed.

Lemma loop_body_accept (sign : R) (st st' : loop_state) :
  loop_body settings w sign st = Some st' ->
  st_gamma st' = st_gamma st + sign * precision /\
  tracked settings w st' /\
  st_deviation st' < st_deviation st.
Proof.
  unfold loop_body, tracked.
  destruct (Rlt_dec _ _) as [Hlt | Hge]; [| discriminate].
  intros [= <-]. simpl. repeat split. exact Hlt.
Qed.

Lemma loop_body_break (sign : R) (st : loop_state) :
  loop_body settings w sign st = None ->
  ~ deviation_at settings w (st_gamma st + sign * precision) < st_deviation st.
Proof.
  unfold loop_body.
  destruct (Rlt_dec _ _) as [Hlt | Hge]; [discriminate |].
  intros _. exact Hge.
Qed.

(** A returned value is the damping of a state reached by accepted steps
    at which the body breaks. *)
Lemma tune_returns (fuel : nat) (sign : R) :
  forall (st : loop_state) (g : R),
    tune settings w fuel sign st = Some g ->
    exists (k : nat) (st' : loop_state),
      (k < fuel)%nat /\
      state_after settings w k sign st = Some st' /\
      loop_body settings w sign st' = None /\
      g = st_gamma st'.
Proof.
  induction fuel as [| n IH]; intros st g; simpl; [discriminate |].
  destruct (loop_body settings w sign st) as [st1 |] eqn:Hb.
  - intros H. destruct (IH _ _ H) as (k & st' & Hk & Hs & Hn & Hg).
    exists (S k), st'. simpl. rewrite Hb. repeat split; auto. lia.
  - intros [= <-]. exists O, st. simpl. repeat split; auto. lia.
Qed.

Lemma tune_reaches (sign : R) (k : nat) :
  forall (st st' : loop_state) (fuel : nat),
    state_after settings w k sign st = Some st' ->
    loop_body settings w sign st' = None ->
    (k < fuel)%nat ->
    tune settings w fuel sign st = Some (st_gamma st').
Proof.
  induction k as [| k IH]; intros st st' fuel; simpl.
  - intros [= <-] Hn Hk. destruct fuel as [| n]; [lia |]. simpl.
    rewrite Hn. reflexivity.
  - destruct (loop_body settings w sign st) as [st1 |] eqn:Hb; [| discriminate].
    intros Hs Hn Hk. destruct fuel as [| n]; [lia |]. simpl. rewrite Hb.
    apply IH; auto. lia.
Qed.

(** Accepted steps walk along the candidates and lower the deviation at
    every step. *)
Lemma state_after_chain (sign : R) (k : nat) :
  forall st st' : loop_state,
    tracked settings w st ->
    state_after settings w k sign st = Some st' ->
    tracked settings w st' /\
    st_gamma st' = candidate k sign (st_gamma st) /\
    (forall j : nat, (j < k)%nat ->
       deviation_at settings w (candidate (S j) sign (st_gamma st))
     < deviation_at settings w (candidate j sign (st_gamma st))).
Proof.
  induction k as [| k IH]; intros st st' Ht; simpl.
  - intros [= <-]. repeat split; auto. intros j Hj. lia.
  - destruct (loop_body settings w sign st) as [st1 |] eqn:Hb; [| discriminate].
    intros Hs.
    destruct (loop_body_accept _ _ _ Hb) as (Hg1 & Ht1 & Hd1).
    destruct (IH _ _ Ht1 Hs) as (Ht' & Hg' & Hch).
    assert (Hshift : forall j, candidate j sign (st_gamma st1)
                               = candidate (S j) sign (st_gamma st)).
    { induction j as [| j IHj]; simpl.
      - exact Hg1.
      - rewrite IHj. reflexivity. }
    repeat split; auto.
    + rewrite Hg'. apply Hshift.
    + intros j Hj. destruct j as [| j].
      * simpl. rewrite <- Hg1, <- Ht1, <- Ht. exact Hd1.
      * rewrite <- !Hshift. apply Hch. lia.
Qed.

Lemma chain_le (f : nat -> R) (k : nat) :
  (forall j : nat, (j < k)%nat -> f (S j) < f j) -> f k <= f O.
Proof.
  induction k as [| k IH]; intros H.
  - apply Rle_refl.
  - apply Rle_trans with (f k).
    + left. apply H. lia.
    + apply IH. intros j Hj. apply H. lia.
Qed.

Lemma tune_fuel_mono (sign : R) (n m : nat) (st : loop_state) (g : R) :
  tune settings w n sign st = Some g -> (n <= m)%nat ->
  tune settings w m sign st = Some g.
Proof.
  intros H Hnm.
  destruct (tune_returns _ _ _ _ H) as (k & st' & Hk & Hs & Hn & ->).
  apply tune_reaches with k; auto. lia.
Qed.

Lemma tune_deterministic (sign : R) (n m : nat) (st : loop_state) (g g' : R) :
  tune settings w n sign st = Some g ->
  tune settings w m sign st = Some g' ->
  g = g'.
Proof.
  intros H1 H2.
  apply (tune_fuel_mono _ _ (Nat.max n m)) in H1; [| lia].
  apply (tune_fuel_mono _ _ (Nat.max n m)) in H2; [| lia].
  congruence.
Qed.

End SearchShape.

(** ** Slope of the curve and the turning time *)

Lemma exp_monotone (x y : R) : x <= y -> exp x <= exp y.
Proof.
  intros [Hlt | ->]; [left; apply exp_increasing; exact Hlt | apply Rle_refl].
Qed.

Lemma linear_derivative (a t : R) :
  derivable_pt_lim (fun x => a * x) t a.
Proof.
  pose proof (derivable_pt_lim_scal id a t 1 (derivable_pt_lim_id t)) as H.
  unfold mult_real_fct, id in H. rewrite Rmult_1_r in H. exact H.
Qed.

Lemma curve_derivative (w g t : R) :
  derivable_pt_lim (fun x => calculate_interpolation_raw w g x) t (curve_slope w g t).
Proof.
  unfold calculate_interpolation_raw, curve_slope.
  assert (He : derivable_pt_lim (fun x => exp (- g * x)) t (exp (- g * t) * (- g))).
  { apply (derivable_pt_lim_comp (fun x => - g * x) exp).
    - apply linear_derivative.
    - apply derivable_pt_lim_exp. }
  assert (Hc : derivable_pt_lim (fun x => cos (w * x)) t (- sin (w * t) * w)).
  { apply (derivable_pt_lim_comp (fun x => w * x) cos).
    - apply linear_derivative.
    - apply derivable_pt_lim_cos. }
  pose proof (derivable_pt_lim_mult _ _ _ _ _ He Hc) as Hm.
  pose proof (derivable_pt_lim_const 1 t) as H1.
  pose proof (derivable_pt_lim_minus _ _ _ _ _ H1 Hm) as Hd.
  unfold minus_fct, mult_fct, fct_cte in Hd.
  replace (exp (- g * t) * (g * cos (w * t) + w * sin (w * t)))
    with (0 - (exp (- g * t) * - g * cos (w * t) + exp (- g * t) * (- sin (w * t) * w)))
    by ring.
  exact Hd.
Qed.

Section TurningTime.

Variables w g : R.
Hypothesis Hw : 0 < w.
Hypothesis Hg : 0 < g.

Lemma hypotenuse_bounds : w < sqrt (g ^ 2 + w ^ 2) < g + w.
Proof.
  assert (Hpos : 0 <= g ^ 2 + w ^ 2) by nra.
  assert (Hs : 0 <= sqrt (g ^ 2 + w ^ 2)) by apply sqrt_pos.
  pose proof (sqrt_sqrt _ Hpos) as Hss.
  split; nra.
Qed.

Lemma hypotenuse_square : sqrt (g ^ 2 + w ^ 2) * sqrt (g ^ 2 + w ^ 2) = g ^ 2 + w ^ 2.
Proof. apply sqrt_sqrt. nra. Qed.

Lemma turning_arg_bounds : -1 < turning_arg w g < 0.
Proof.
  destruct hypotenuse_bounds as [H1 H2].
  unfold turning_arg.
  replace (w / g - sqrt (g ^ 2 + w ^ 2) / g)
    with ((w - sqrt (g ^ 2 + w ^ 2)) / g) by (field; lra).
  split.
  - apply Rmult_lt_reg_r with g; [exact Hg |].
    unfold Rdiv. rewrite Rmult_assoc, Rinv_l by lra. lra.
  - apply Rmult_lt_reg_r with g; [exact Hg |].
    unfold Rdiv. rewrite Rmult_assoc, Rinv_l by lra. lra.
Qed.

Lemma turning_arg_root :
  g * (1 - turning_arg w g * turning_arg w g) + 2 * w * turning_arg w g = 0.
Proof.
  pose proof hypotenuse_square as Hss.
  unfold turning_arg.
  set (s := sqrt (g ^ 2 + w ^ 2)) in *.
  replace (g * (1 - (w / g - s / g) * (w / g - s / g)) + 2 * w * (w / g - s / g))
    with ((g ^ 2 + w ^ 2 - s * s) / g) by (field; lra).
  rewrite Hss. field. lra.
Qed.

Lemma turning_phase :
  w * calculate_turning_time w g = 2 * atan (turning_arg w g) + PI.
Proof. unfold calculate_turning_time, turning_arg. field. lra. Qed.

Lemma turning_atan_bounds : - (PI / 4) < atan (turning_arg w g) < 0.
Proof.
  destruct turning_arg_bounds as [H1 H2].
  split.
  - rewrite <- atan_1, <- atan_opp. apply atan_increasing. lra.
  - rewrite <- atan_0. apply atan_increasing. exact H2.
Qed.

Lemma turning_phase_bounds :
  PI / 2 < w * calculate_turning_time w g < PI.
Proof.
  rewrite turning_phase. destruct turning_atan_bounds. split; lra.
Qed.

Lemma turning_time_bounds :
  PI / (2 * w) < calculate_turning_time w g < PI / w.
Proof.
  destruct turning_phase_bounds as [H1 H2].
  set (t := calculate_turning_time w g) in *.
  split.
  - apply Rmult_lt_reg_l with w; [exact Hw |].
    replace (w * (PI / (2 * w))) with (PI / 2) by (field; lra). exact H1.
  - apply Rmult_lt_reg_l with w; [exact Hw |].
    replace (w * (PI / w)) with PI by (field; lra). exact H2.
Qed.

Lemma turning_cos_sin :
  cos (w * calculate_turning_time w g) < 0 /\
  0 < sin (w * calculate_turning_time w g).
Proof.
  destruct turning_phase_bounds as [H1 H2].
  split.
  - apply cos_lt_0; lra.
  - apply sin_gt_0; lra.
Qed.

(** The slope of the curve vanishes at the turning time. *)
Lemma turning_balance :
  g * cos (w * calculate_turning_time w g)
  + w * sin (w * calculate_turning_time w g) = 0.
Proof.
  rewrite turning_phase, neg_cos, neg_sin, cos_2a, sin_2a.
  destruct turning_atan_bounds as [Ha1 Ha2].
  pose proof turning_arg_root as Hr.
  set (y := turning_arg w g) in *.
  assert (Hc : 0 < cos (atan y)).
  { apply cos_gt_0; pose proof PI_RGT_0; lra. }
  assert (Hs : sin (atan y) = y * cos (atan y)).
  { pose proof (tan_atan y) as Ht. unfold tan in Ht.
    rewrite <- Ht at 2. field. lra. }
  rewrite Hs.
  replace (g * - (cos (atan y) * cos (atan y) - y * cos (atan y) * (y * cos (atan y)))
           + w * - (2 * (y * cos (atan y)) * cos (atan y)))
    with (- (cos (atan y) * cos (atan y)) * (g * (1 - y * y) + 2 * w * y)) by ring.
  rewrite Hr. ring.
Qed.

(** Around the turning time the slope is a negative multiple of the sine of
    the phase offset. *)
Lemma slope_near_turning (t : R) :
  curve_slope w g t =
  exp (- g * t)
  * ((w * cos (w * calculate_turning_time w g)
      - g * sin (w * calculate_turning_time w g))
     * sin (w * (t - calculate_turning_time w g))).
Proof.
  unfold curve_slope. f_equal.
  set (ts := calculate_turning_time w g).
  pose proof turning_balance as Hb. fold ts in Hb.
  replace (w * t) with (w * ts + w * (t - ts)) by ring.
  rewrite cos_plus, sin_plus.
  replace (w * ts + w * (t - ts) - w * ts) with (w * (t - ts)) by ring.
  set (c := cos (w * ts)) in *. set (s := sin (w * ts)) in *.
  set (cu := cos (w * (t - ts))). set (su := sin (w * (t - ts))).
  replace (g * (c * cu - s * su) + w * (s * cu + c * su))
    with ((g * c + w * s) * cu + (w * c - g * s) * su) by ring.
  rewrite Hb. 
  replace (w * (ts + (t - ts) - ts)) with (w * (t - ts)) by ring.
  fold su. ring.
Qed.

Lemma slope_before_turning (t : R) :
  calculate_turning_time w g - PI / w < t < calculate_turning_time w g ->
  0 < curve_slope w g t.
Proof.
  intros [H1 H2]. rewrite slope_near_turning.
  destruct turning_cos_sin as [Hc Hs].
  set (ts := calculate_turning_time w g) in *.
  assert (Hsin : sin (w * (t - ts)) < 0).
  { apply sin_lt_0_var.
    - apply Rmult_lt_reg_l with (/ w); [apply Rinv_0_lt_compat; lra |].
      rewrite <- Rmult_assoc, Rinv_l by lra. unfold Rdiv in H1. lra.
    - nra. }
  assert (HD : w * cos (w * ts) - g * sin (w * ts) < 0) by nra.
  apply Rmult_lt_0_compat; [apply exp_pos |].
  replace ((w * cos (w * ts) - g * sin (w * ts)) * sin (w * (t - ts)))
    with ((- (w * cos (w * ts) - g * sin (w * ts))) * (- sin (w * (t - ts)))) by ring.
  apply Rmult_lt_0_compat; lra.
Qed.

Lemma slope_after_turning (t : R) :
  calculate_turning_time w g < t < calculate_turning_time w g + PI / w ->
  curve_slope w g t < 0.
Proof.
  intros [H1 H2]. rewrite slope_near_turning.
  destruct turning_cos_sin as [Hc Hs].
  set (ts := calculate_turning_time w g) in *.
  assert (Hsin : 0 < sin (w * (t - ts))).
  { apply sin_gt_0.
    - nra.
    - apply Rmult_lt_reg_l with (/ w); [apply Rinv_0_lt_compat; lra |].
      rewrite <- Rmult_assoc, Rinv_l by lra. unfold Rdiv in H2. lra. }
  assert (HD : w * cos (w * ts) - g * sin (w * ts) < 0) by nra.
  assert (HP : 0 < (- (w * cos (w * ts) - g * sin (w * ts))) * sin (w * (t - ts)))
    by (apply Rmult_lt_0_compat; lra).
  pose proof (exp_pos (- g * t)) as He.
  assert (0 < exp (- g * t) * ((- (w * cos (w * ts) - g * sin (w * ts))) * sin (w * (t - ts))))
    by (apply Rmult_lt_0_compat; assumption).
  lra.
Qed.

End TurningTime.

(** ** The peak: the curve at its turning time *)

Section Peak.

Variable w : R.
Hypothesis Hw : 0 < w.

Lemma curve_rises_to_turning (g t : R) :
  0 < g ->
  calculate_turning_time w g - PI / w <= t < calculate_turning_time w g ->
  calculate_interpolation_raw w g t
  < calculate_interpolation_raw w g (calculate_turning_time w g).
Proof.
  intros Hg [H1 H2].
  destruct (MVT_cor2 (fun x => calculate_interpolation_raw w g x)
              (curve_slope w g) t (calculate_turning_time w g) H2
              (fun c _ => curve_derivative w g c)) as (c & Hc & Hc1 & Hc2).
  assert (Hs : 0 < curve_slope w g c)
    by (apply slope_before_turning; auto; lra).
  assert (0 < curve_slope w g c * (calculate_turning_time w g - t))
    by (apply Rmult_lt_0_compat; lra).
  simpl in Hc. lra.
Qed.

Lemma curve_falls_from_turning (g t : R) :
  0 < g ->
  calculate_turning_time w g < t <= calculate_turning_time w g + PI / w ->
  calculate_interpolation_raw w g t
  < calculate_interpolation_raw w g (calculate_turning_time w g).
Proof.
  intros Hg [H1 H2].
  destruct (MVT_cor2 (fun x => calculate_interpolation_raw w g x)
              (curve_slope w g) (calculate_turning_time w g) t H1
              (fun c _ => curve_derivative w g c)) as (c & Hc & Hc1 & Hc2).
  assert (Hs : curve_slope w g c < 0)
    by (apply slope_after_turning; auto; lra).
  assert (0 < (- curve_slope w g c) * (t - calculate_turning_time w g))
    by (apply Rmult_lt_0_compat; lra).
  simpl in Hc. lra.
Qed.

Lemma half_period_value (g : R) :
  calculate_interpolation_raw w g (PI / w) = 1 + exp (- g * (PI / w)).
Proof.
  unfold calculate_interpolation_raw.
  replace (w * (PI / w)) with PI by (field; lra).
  rewrite cos_PI. ring.
Qed.

Lemma exp_decreasing_arg (g a b : R) :
  0 < g -> a < b -> exp (- g * b) < exp (- g * a).
Proof. intros Hg Hab. apply exp_increasing. nra. Qed.

Lemma exp_decreasing_arg_le (g a b : R) :
  0 <= g -> a <= b -> exp (- g * b) <= exp (- g * a).
Proof.
  intros Hg Hab. apply exp_monotone. nra.
Qed.

(** The value at the turning time is the largest the curve takes from the
    start on. *)
Lemma peak_is_global (g t : R) :
  0 < g -> 0 <= t ->
  calculate_interpolation_raw w g t
  <= calculate_interpolation_raw w g (calculate_turning_time w g).
Proof.
  intros Hg Ht.
  destruct (turning_time_bounds w g Hw Hg) as [Hb1 Hb2].
  assert (Hpw : 0 < PI / w) by (apply Rdiv_lt_0_compat; [apply PI_RGT_0 | lra]).
  assert (Hpw2 : 0 < PI / (2 * w))
    by (apply Rdiv_lt_0_compat; [apply PI_RGT_0 | lra]).
  assert (Hhalf : calculate_interpolation_raw w g (PI / w)
                  < calculate_interpolation_raw w g (calculate_turning_time w g))
    by (apply curve_falls_from_turning; auto; lra).
  destruct (Rle_lt_dec t (PI / w)) as [Hle | Hgt].
  - destruct (Rtotal_order t (calculate_turning_time w g)) as [Hlt | [Heq | Hgt]].
    + left. apply curve_rises_to_turning; auto. lra.
    + rewrite Heq. apply Rle_refl.
    + left. apply curve_falls_from_turning; auto. lra.
  - apply Rle_trans with (calculate_interpolation_raw w g (PI / w)); [| lra].
    rewrite half_period_value. unfold calculate_interpolation_raw.
    pose proof (exp_decreasing_arg g _ _ Hg Hgt) as He.
    pose proof (exp_pos (- g * t)) as Hp.
    destruct (COS_bound (w * t)) as [Hc1 Hc2].
    assert (0 <= exp (- g * t) * (1 + cos (w * t)))
      by (apply Rmult_le_pos; lra).
    lra.
Qed.

Lemma peak_value (g : R) :
  interpolation_at w g
  = exp (- g * calculate_turning_time w g)
    * - cos (w * calculate_turning_time w g).
Proof. unfold interpolation_at, calculate_interpolation_raw. ring. Qed.

Lemma peak_positive (g : R) : 0 < g -> 0 < interpolation_at w g.
Proof.
  intros Hg. rewrite peak_value.
  destruct (turning_cos_sin w g Hw Hg) as [Hc _].
  apply Rmult_lt_0_compat; [apply exp_pos | lra].
Qed.

Lemma peak_below_envelope (g : R) :
  0 < g -> interpolation_at w g < exp (- g * (PI / (2 * w))).
Proof.
  intros Hg. rewrite peak_value.
  destruct (turning_cos_sin w g Hw Hg) as [Hc _].
  destruct (turning_time_bounds w g Hw Hg) as [Hb1 _].
  pose proof (exp_decreasing_arg g _ _ Hg Hb1) as He.
  pose proof (exp_pos (- g * calculate_turning_time w g)) as Hp.
  destruct (COS_bound (w * calculate_turning_time w g)) as [Hc1 _].
  nra.
Qed.

Lemma peak_above_half_period (g : R) :
  0 < g -> exp (- g * (PI / w)) < interpolation_at w g.
Proof.
  intros Hg.
  destruct (turning_time_bounds w g Hw Hg) as [Hb1 Hb2].
  assert (Hpw : 0 < PI / (2 * w))
    by (apply Rdiv_lt_0_compat; [apply PI_RGT_0 | lra]).
  pose proof (curve_falls_from_turning g (PI / w) Hg) as H.
  rewrite half_period_value in H. unfold interpolation_at.
  assert (1 + exp (- g * (PI / w))
          < calculate_interpolation_raw w g (calculate_turning_time w g))
    by (apply H; lra).
  lra.
Qed.

(** More damping, lower peak. *)
Lemma peak_decreasing (g1 g2 : R) :
  0 < g1 -> g1 < g2 -> interpolation_at w g2 < interpolation_at w g1.
Proof.
  intros Hg1 Hlt.
  assert (Hg2 : 0 < g2) by lra.
  destruct (turning_cos_sin w g2 Hw Hg2) as [Hc _].
  destruct (turning_time_bounds w g2 Hw Hg2) as [Hb1 _].
  assert (Hpw : 0 < PI / (2 * w))
    by (apply Rdiv_lt_0_compat; [apply PI_RGT_0 | lra]).
  set (t2 := calculate_turning_time w g2) in *.
  assert (Ht2 : 0 < t2) by lra.
  apply Rlt_le_trans with (calculate_interpolation_raw w g1 t2 - 1).
  - rewrite peak_value. fold t2. unfold calculate_interpolation_raw.
    assert (He : exp (- g2 * t2) < exp (- g1 * t2))
      by (apply exp_increasing; nra).
    nra.
  - unfold interpolation_at.
    pose proof (peak_is_global g1 t2 Hg1 (Rlt_le _ _ Ht2)). lra.
Qed.

(** A step of [d] in damping lowers the peak by a factor of at most
    [exp (d PI / w)]. *)
Lemma peak_step (g d : R) :
  0 < g -> 0 <= d ->
  interpolation_at w g <= exp (d * (PI / w)) * interpolation_at w (g + d).
Proof.
  intros Hg Hd.
  assert (Hgd : 0 < g + d) by lra.
  destruct (turning_cos_sin w g Hw Hg) as [Hc _].
  destruct (turning_time_bounds w g Hw Hg) as [Hb1 Hb2].
  assert (Hpw : 0 < PI / (2 * w))
    by (apply Rdiv_lt_0_compat; [apply PI_RGT_0 | lra]).
  set (t1 := calculate_turning_time w g) in *.
  assert (Ht1 : 0 <= t1) by lra.
  pose proof (peak_is_global (g + d) t1 Hgd Ht1) as Hglob.
  pose proof (peak_positive (g + d) Hgd) as Hpos.
  rewrite peak_value. fold t1.
  apply Rle_trans with (exp (d * t1) * (calculate_interpolation_raw w (g + d) t1 - 1)).
  - unfold calculate_interpolation_raw.
    replace (- g * t1) with (d * t1 + - (g + d) * t1) by ring.
    rewrite exp_plus. right. ring.
  - apply Rle_trans with (exp (d * t1) * interpolation_at w (g + d)).
    + apply Rmult_le_compat_l; [left; apply exp_pos |].
      unfold interpolation_at. lra.
    + apply Rmult_le_compat_r; [lra |].
      apply exp_monotone. nra.
Qed.

End Peak.

Section TurningLocation.

Variables w g : R.
Hypothesis Hw : 0 < w.
Hypothesis Hg : 0 < g.

Lemma slope_at_turning : curve_slope w g (calculate_turning_time w g) = 0.
Proof.
  unfold curve_slope. rewrite turning_balance by assumption. ring.
Qed.

(** A time of the first half period at which the curve still rises lies
    before the turning time. *)
Lemma turning_time_after (t : R) :
  0 < t < PI / w -> 0 < curve_slope w g t -> t < calculate_turning_time w g.
Proof.
  intros [Ht1 Ht2] Hs.
  destruct (turning_time_bounds w g Hw Hg) as [Hb1 Hb2].
  assert (Hpw : 0 < PI / (2 * w))
    by (apply Rdiv_lt_0_compat; [apply PI_RGT_0 | lra]).
  destruct (Rtotal_order t (calculate_turning_time w g)) as [Hlt | [Heq | Hgt]].
  - exact Hlt.
  - rewrite Heq, slope_at_turning in Hs. lra.
  - pose proof (slope_after_turning w g Hw Hg t). lra.
Qed.

Lemma turning_amplitude :
  cos (w * calculate_turning_time w g) * cos (w * calculate_turning_time w g)
  * (w * w + g * g) = w * w.
Proof.
  pose proof (turning_balance w g Hw Hg) as Hb.
  pose proof (sin2_cos2 (w * calculate_turning_time w g)) as Hsc.
  unfold Rsqr in Hsc.
  set (c := cos (w * calculate_turning_time w g)) in *.
  set (s := sin (w * calculate_turning_time w g)) in *.
  assert (Hws : w * s = - (g * c)) by lra.
  replace (c * c * (w * w + g * g)) with (w * w * (c * c) + (g * c) * (g * c)) by ring.
  rewrite <- (Ropp_involutive (g * c)), <- Hws.
  replace (w * w * (c * c) + - (w * s) * - (w * s))
    with (w * w * (s * s + c * c)) by ring.
  rewrite Hsc. ring.
Qed.

End TurningLocation.

(** ** The damping search on valid settings *)

Lemma precision_positive : 0 < precision.
Proof. unfold precision. lra. Qed.

Lemma calculate_omega_positive (s : InterpolatorSettings) :
  0 <= rest_position_runs s -> 0 < calculate_omega s.
Proof.
  intros H. unfold calculate_omega. simpl.
  pose proof PI_RGT_0. 
  apply Rmult_lt_0_compat; lra.
Qed.

Section SearchAnalysis.

Variable settings : InterpolatorSettings.
Variable w : R.
Hypothesis Hos : 0 < overshoot settings < 1.
Hypothesis Hw : 0 < w.

Lemma half_period_positive : 0 < PI / w.
Proof. apply Rdiv_lt_0_compat; [apply PI_RGT_0 | exact Hw]. Qed.

Lemma naive_gamma_positive : 0 < naive_gamma settings w.
Proof.
  unfold naive_gamma.
  assert (Hln : ln (overshoot settings) < 0).
  { rewrite <- ln_1. apply ln_increasing; lra. }
  apply Rdiv_lt_0_compat; [lra | apply half_period_positive].
Qed.

(** The naive damping puts the envelope on the target at the half period. *)
Lemma naive_gamma_envelope :
  exp (- naive_gamma settings w * (PI / w)) = overshoot settings.
Proof.
  unfold naive_gamma.
  replace (- (- ln (overshoot settings) / (PI / w)) * (PI / w))
    with (ln (overshoot settings)).
  - apply exp_ln. lra.
  - field. split; [lra | apply PI_neq0].
Qed.

(** The peak of the naive damping lies above the target, so the search
    always goes towards more damping. *)
Lemma naive_peak_above_target :
  overshoot settings < interpolation_at w (naive_gamma settings w).
Proof.
  rewrite <- naive_gamma_envelope at 1.
  apply peak_above_half_period; [exact Hw | apply naive_gamma_positive].
Qed.

Lemma search_sign_up : search_sign settings w = 1.
Proof.
  unfold search_sign. fold (interpolation_at w (naive_gamma settings w)).
  pose proof naive_peak_above_target.
  destruct (Rgt_dec _ _) as [Hgt | Hngt]; [reflexivity | lra].
Qed.

Lemma deviation_above (g : R) :
  overshoot settings <= interpolation_at w g ->
  deviation_at settings w g = interpolation_at w g - overshoot settings.
Proof.
  intros H. unfold deviation_at. rewrite Rabs_left1; lra.
Qed.

Lemma deviation_below (g : R) :
  interpolation_at w g <= overshoot settings ->
  deviation_at settings w g = overshoot settings - interpolation_at w g.
Proof.
  intros H. unfold deviation_at. rewrite Rabs_pos_eq; lra.
Qed.

Lemma loop_body_tracked (sign : R) (st : loop_state) :
  tracked settings w st ->
  loop_body settings w sign st =
  if Rlt_dec (deviation_at settings w (st_gamma st + sign * precision))
             (deviation_at settings w (st_gamma st))
  then Some (mkLoop (st_gamma st + sign * precision)
               (deviation_at settings w (st_gamma st + sign * precision)))
  else None.
Proof. intros Ht. unfold loop_body. rewrite Ht. reflexivity. Qed.

(** Once the peak is at or below the target, one more step is worse. *)
Lemma loop_body_breaks_below (st : loop_state) :
  tracked settings w st -> 0 < st_gamma st ->
  interpolation_at w (st_gamma st) <= overshoot settings ->
  loop_body settings w 1 st = None.
Proof.
  intros Ht Hg Hb. rewrite loop_body_tracked by exact Ht.
  pose proof precision_positive as Hp.
  assert (Hlt : interpolation_at w (st_gamma st + 1 * precision)
                < interpolation_at w (st_gamma st))
    by (apply peak_decreasing; auto; lra).
  rewrite (deviation_below (st_gamma st)) by exact Hb.
  rewrite deviation_below by lra.
  destruct (Rlt_dec _ _) as [H | H]; [lra | reflexivity].
Qed.

(** While the next peak is still at or above the target the step is taken. *)
Lemma loop_body_accepts_above (st : loop_state) :
  tracked settings w st -> 0 < st_gamma st ->
  overshoot settings <= interpolation_at w (st_gamma st + 1 * precision) ->
  loop_body settings w 1 st <> None.
Proof.
  intros Ht Hg Hb. rewrite loop_body_tracked by exact Ht.
  pose proof precision_positive as Hp.
  assert (Hlt : interpolation_at w (st_gamma st + 1 * precision)
                < interpolation_at w (st_gamma st))
    by (apply peak_decreasing; auto; lra).
  rewrite (deviation_above (st_gamma st)) by lra.
  rewrite deviation_above by exact Hb.
  destruct (Rlt_dec _ _) as [H | H]; [discriminate | lra].
Qed.

Lemma tune_terminates (n : nat) :
  forall st : loop_state,
    tracked settings w st -> 0 < st_gamma st ->
    interpolation_at w (st_gamma st + INR n * precision) <= overshoot settings ->
    exists g : R, tune settings w (S n) 1 st = Some g.
Proof.
  induction n as [| n IH]; intros st Ht Hg Hb.
  - simpl in Hb. rewrite Rmult_0_l, Rplus_0_r in Hb.
    simpl. rewrite loop_body_breaks_below by assumption. eauto.
  - change (tune settings w (S (S n)) 1 st)
      with (match loop_body settings w 1 st with
            | Some st' => tune settings w (S n) 1 st'
            | None => Some (st_gamma st)
            end).
    destruct (loop_body settings w 1 st) as [st1 |] eqn:Hbody; [| eauto].
    destruct (loop_body_accept _ _ _ _ _ Hbody) as (Hg1 & Ht1 & _).
    pose proof precision_positive as Hp.
    apply IH; [exact Ht1 | rewrite Hg1; lra |].
    rewrite Hg1. rewrite S_INR in Hb.
    replace (st_gamma st + 1 * precision + INR n * precision)
      with (st_gamma st + (INR n + 1) * precision) by ring.
    exact Hb.
Qed.

(** Far enough along the candidates the peak is below the target. *)
Lemma far_candidate_below :
  exists n : nat,
    interpolation_at w (naive_gamma settings w + INR n * precision)
    <= overshoot settings.
Proof.
  pose proof precision_positive as Hp.
  pose proof naive_gamma_positive as Hg0.
  destruct (INR_unbounded (naive_gamma settings w / precision)) as [n Hn].
  exists n.
  assert (Hstep : naive_gamma settings w < INR n * precision).
  { apply Rmult_lt_reg_r with (/ precision); [apply Rinv_0_lt_compat; lra |].
    rewrite Rmult_assoc, Rinv_r by lra. unfold Rdiv in Hn. lra. }
  set (G := naive_gamma settings w + INR n * precision) in *.
  assert (HG : 0 < G) by (unfold G; lra).
  left. apply Rlt_le_trans with (exp (- G * (PI / (2 * w)))).
  - apply peak_below_envelope; assumption.
  - rewrite <- naive_gamma_envelope.
    pose proof half_period_positive as Hh.
    assert (E : PI / (2 * w) = PI / w / 2) by (field; lra).
    apply exp_monotone. rewrite E. unfold G. nra.
Qed.

Lemma calculate_gamma_terminates :
  exists (fuel : nat) (g : R), calculate_gamma settings w fuel = Some g.
Proof.
  destruct far_candidate_below as [n Hn].
  exists (S n). unfold calculate_gamma. rewrite search_sign_up.
  apply tune_terminates.
  - apply initial_state_tracked.
  - apply naive_gamma_positive.
  - exact Hn.
Qed.

Lemma candidate_up (k : nat) (start : R) : start <= candidate k 1 start.
Proof.
  pose proof precision_positive as Hp.
  induction k as [| k IH]; simpl; lra.
Qed.

(** What the search returns: a damping not below the naive one, whose peak
    is within one step factor above and below the target. *)
Lemma calculate_gamma_result (fuel : nat) (g : R) :
  calculate_gamma settings w fuel = Some g ->
  naive_gamma settings w <= g /\
  interpolation_at w (g + 1 * precision) < overshoot settings /\
  overshoot settings < exp (precision * (PI / w)) * interpolation_at w g.
Proof.
  unfold calculate_gamma. rewrite search_sign_up. intros H.
  destruct (tune_returns _ _ _ _ _ _ H) as (k & st' & _ & Hs & Hn & ->).
  destruct (state_after_chain _ _ _ _ _ _ (initial_state_tracked settings w) Hs)
    as (Ht' & Hg' & Hch).
  change (st_gamma (initial_state settings w)) with (naive_gamma settings w) in *.
  pose proof precision_positive as Hp.
  pose proof naive_gamma_positive as Hg0.
  pose proof (candidate_up k (naive_gamma settings w)) as Hup.
  rewrite <- Hg' in Hup.
  assert (Hpos : 0 < st_gamma st') by lra.
  split; [exact Hup |]. split.
  - destruct (Rlt_le_dec (interpolation_at w (st_gamma st' + 1 * precision))
                (overshoot settings)) as [Hlt | Hle]; [exact Hlt |].
    exfalso. exact (loop_body_accepts_above st' Ht' Hpos Hle Hn).
  - destruct k as [| k].
    + simpl in Hg'. rewrite Hg'.
      pose proof naive_peak_above_target as Hnp.
      assert (He : 1 < exp (precision * (PI / w))).
      { rewrite <- exp_0. apply exp_increasing.
        apply Rmult_lt_0_compat; [lra | apply half_period_positive]. }
      nra.
    + pose proof (Hch k (Nat.lt_succ_diag_r k)) as Hdec.
      rewrite <- Hg' in Hdec. simpl in Hg'.
      set (gp := candidate k 1 (naive_gamma settings w)) in *.
      assert (Hgp : 0 < gp).
      { pose proof (candidate_up k (naive_gamma settings w)). fold gp in H0. lra. }
      assert (Hprev : overshoot settings < interpolation_at w gp).
      { destruct (Rlt_le_dec (overshoot settings) (interpolation_at w gp))
          as [Hlt | Hle]; [exact Hlt | exfalso].
        assert (Hlt : interpolation_at w (st_gamma st') < interpolation_at w gp)
          by (rewrite Hg'; apply peak_decreasing; auto; lra).
        rewrite (deviation_below gp) in Hdec by exact Hle.
        rewrite deviation_below in Hdec by lra. lra. }
      pose proof (peak_step w Hw gp (1 * precision) Hgp) as Hst.
      rewrite Hg'. replace (precision * (PI / w)) with (1 * precision * (PI / w)) by ring.
      assert (0 <= 1 * precision) by lra. specialize (Hst H0). lra.
Qed.

(** Every state the loop reaches has a damping at or above the naive one. *)
Lemma reached_gamma_positive (k : nat) (st : loop_state) :
  state_after settings w k (search_sign settings w) (initial_state settings w)
  = Some st ->
  naive_gamma settings w <= st_gamma st /\ 0 < st_gamma st.
Proof.
  rewrite search_sign_up. intros Hs.
  destruct (state_after_chain _ _ _ _ _ _ (initial_state_tracked settings w) Hs)
    as (_ & Hg' & _).
  change (st_gamma (initial_state settings w)) with (naive_gamma settings w) in Hg'.
  pose proof (candidate_up k (naive_gamma settings w)) as Hup.
  pose proof naive_gamma_positive. rewrite Hg'. lra.
Qed.

Lemma tune_calls_positive (fuel : nat) :
  forall st : loop_state,
    0 < st_gamma st ->
    Forall (fun g => 0 < g) (tune_calls settings w fuel 1 st).
Proof.
  pose proof precision_positive as Hp.
  induction fuel as [| n IH]; intros st Hg; simpl.
  - constructor.
  - constructor.
    + unfold tuned_gamma_of. lra.
    + destruct (loop_body settings w 1 st) as [st1 |] eqn:Hbody.
      * apply IH.
        destruct (loop_body_accept _ _ _ _ _ Hbody) as (Hg1 & _ & _).
        rewrite Hg1. lra.
      * constructor.
Qed.

Lemma calculate_gamma_calls_positive (fuel : nat) :
  Forall (fun g => 0 < g) (calculate_gamma_calls settings w fuel).
Proof.
  unfold calculate_gamma_calls. constructor.
  - apply naive_gamma_positive.
  - rewrite search_sign_up. apply tune_calls_positive.
    apply naive_gamma_positive.
Qed.

End SearchAnalysis.

(** ** The claims on the turning time and on the search *)

(** C8: for omega > 0 and gamma > 0 the turning time is the closed form
    [2 atan(omega/gamma - sqrt(gamma^2 + omega^2)/gamma) / omega + PI/omega];
    it is positive, the derivative of the curve vanishes there and is
    positive at every earlier time from the start on (so this is the first
    extremum), and the curve has a local maximum there: for every small
    eps > 0 the values at [t* + eps] and [t* - eps] are at most the value at
    [t*]. *)
Theorem turning_time_first_maximum :
  forall w g : R,
    0 < w -> 0 < g ->
    calculate_turning_time w g
    = 2 * atan (w / g - sqrt (g ^ 2 + w ^ 2) / g) / w + PI / w /\
    0 < calculate_turning_time w g /\
    derivable_pt_lim (fun t => calculate_interpolation_raw w g t)
      (calculate_turning_time w g) 0 /\
    (forall t d : R,
        0 <= t < calculate_turning_time w g ->
        derivable_pt_lim (fun x => calculate_interpolation_raw w g x) t d ->
        0 < d) /\
    (exists delta : R,
        0 < delta /\
        forall eps : R,
          0 < eps < delta ->
          calculate_interpolation_raw w g (calculate_turning_time w g + eps)
          <= calculate_interpolation_raw w g (calculate_turning_time w g) /\
          calculate_interpolation_raw w g (calculate_turning_time w g - eps)
          <= calculate_interpolation_raw w g (calculate_turning_time w g)).
Proof.
  intros w g Hw Hg.
  destruct (turning_time_bounds w g Hw Hg) as [Hb1 Hb2].
  assert (Hpw : 0 < PI / w) by (apply Rdiv_lt_0_compat; [apply PI_RGT_0 | lra]).
  assert (Hpw2 : 0 < PI / (2 * w))
    by (apply Rdiv_lt_0_compat; [apply PI_RGT_0 | lra]).
  split; [reflexivity |]. split; [lra |]. split; [| split].
  - rewrite <- (slope_at_turning w g Hw Hg). apply curve_derivative.
  - intros t d Ht Hd.
    rewrite (uniqueness_limite _ _ _ _ Hd (curve_derivative w g t)).
    apply slope_before_turning; auto. lra.
  - exists (PI / w). split; [exact Hpw |]. intros eps Heps. split; left.
    + apply curve_falls_from_turning; auto. lra.
    + apply curve_rises_to_turning; auto. lra.
Qed.

Lemma turning_time_first_maximum_witness :
  0 < 3 /\ 0 < 2 /\
  derivable_pt_lim (fun t => calculate_interpolation_raw 3 2 t)
    (calculate_turning_time 3 2) 0.
Proof.
  split; [lra |]. split; [lra |].
  apply (turning_time_first_maximum 3 2); lra.
Defined.

(** C3: when the damping search returns, the returned gamma is the candidate
    after some number [k] of accepted steps; each of these steps strictly
    lowered the absolute deviation from the target overshoot, step [k + 1]
    did not (the loop stops at the first step that does not improve), and the
    deviation of the returned gamma is at most that of the seed. *)
Theorem search_monotone_convergence :
  forall (settings : InterpolatorSettings) (w : R) (fuel : nat) (g : R),
    calculate_gamma settings w fuel = Some g ->
    exists k : nat,
      (k < fuel)%nat /\
      g = candidate k (search_sign settings w) (naive_gamma settings w) /\
      (forall j : nat, (j < k)%nat ->
         deviation_at settings w
           (candidate (S j) (search_sign settings w) (naive_gamma settings w))
         < deviation_at settings w
             (candidate j (search_sign settings w) (naive_gamma settings w))) /\
      ~ deviation_at settings w
          (candidate (S k) (search_sign settings w) (naive_gamma settings w))
        < deviation_at settings w g /\
      deviation_at settings w g
      <= deviation_at settings w (naive_gamma settings w).
Proof.
  intros settings w fuel g H. unfold calculate_gamma in H.
  destruct (tune_returns _ _ _ _ _ _ H) as (k & st' & Hk & Hs & Hn & ->).
  destruct (state_after_chain _ _ _ _ _ _ (initial_state_tracked settings w) Hs)
    as (Ht' & Hg' & Hch).
  change (st_gamma (initial_state settings w)) with (naive_gamma settings w) in *.
  exists k. split; [exact Hk |]. split; [exact Hg' |]. split; [exact Hch |]. split.
  - pose proof (loop_body_break _ _ _ _ Hn) as Hbr.
    rewrite Ht' in Hbr. simpl. rewrite <- Hg'. exact Hbr.
  - rewrite Hg'.
    apply (chain_le (fun j => deviation_at settings w
             (candidate j (search_sign settings w) (naive_gamma settings w)))).
    exact Hch.
Qed.

Lemma test_settings_valid :
  0 < overshoot test_settings < 1 /\ 0 <= rest_position_runs test_settings.
Proof. simpl. lra. Qed.

Lemma search_monotone_convergence_witness :
  exists (fuel : nat) (g : R),
    calculate_gamma test_settings (calculate_omega test_settings) fuel = Some g /\
    deviation_at test_settings (calculate_omega test_settings) g
    <= deviation_at test_settings (calculate_omega test_settings)
         (naive_gamma test_settings (calculate_omega test_settings)).
Proof.
  destruct (calculate_gamma_terminates test_settings (calculate_omega test_settings)
              (proj1 test_settings_valid)
              (calculate_omega_positive _ (proj2 test_settings_valid)))
    as (fuel & g & H).
  exists fuel, g. split; [exact H |].
  destruct (search_monotone_convergence _ _ _ _ H) as (k & _ & _ & _ & _ & Hle).
  exact Hle.
Defined.

Lemma calculate_params_some (fuel : nat) (s : InterpolatorSettings)
      (p : InterpolatorParams) :
  calculate_params fuel s = Some p ->
  omega p = calculate_omega s /\
  calculate_gamma s (calculate_omega s) fuel = Some (gamma p).
Proof.
  unfold calculate_params.
  destruct (calculate_gamma s (calculate_omega s) fuel) as [g |] eqn:Hg;
    [| discriminate].
  intros [= <-]. simpl. auto.
Qed.

Lemma calculate_params_terminates (s : InterpolatorSettings) :
  0 < overshoot s < 1 -> 0 <= rest_position_runs s ->
  exists (fuel : nat) (p : InterpolatorParams),
    calculate_params fuel s = Some p /\ 0 < gamma p /\ 0 < omega p.
Proof.
  intros Hos Hr.
  pose proof (calculate_omega_positive s Hr) as Hw.
  destruct (calculate_gamma_terminates s _ Hos Hw) as (fuel & g & H).
  exists fuel, (mkParams (calculate_omega s) g).
  unfold calculate_params. rewrite H. simpl. repeat split; auto.
  destruct (calculate_gamma_result s _ Hos Hw fuel g H) as (Hge & _).
  pose proof (naive_gamma_positive s _ Hos Hw). lra.
Qed.

Lemma calculate_params_fuel_mono (n m : nat) (s : InterpolatorSettings)
      (p : InterpolatorParams) :
  calculate_params n s = Some p -> (n <= m)%nat -> calculate_params m s = Some p.
Proof.
  unfold calculate_params, calculate_gamma.
  destruct (tune s (calculate_omega s) n _ _) as [g |] eqn:Hg; [| discriminate].
  intros [= <-] Hnm.
  rewrite (tune_fuel_mono _ _ _ _ _ _ _ Hg Hnm). reflexivity.
Qed.

(** C4: for the settings [{rest_position_runs = 16, overshoot = 0.85}] the
    loop of the search exits after finitely many iterations, and the derived
    pair has gamma > 0 and omega > 0. *)
Theorem long_running_converges :
  exists (fuel : nat) (p : InterpolatorParams),
    calculate_params fuel long_running_settings = Some p /\
    0 < gamma p /\ 0 < omega p /\
    (forall (fuel' : nat) (p' : InterpolatorParams),
        calculate_params fuel' long_running_settings = Some p' -> p' = p).
Proof.
  destruct (calculate_params_terminates long_running_settings)
    as (fuel & p & H & Hg & Hw); [simpl; lra | simpl; lra |].
  exists fuel, p. repeat split; auto.
  intros fuel' p' H'.
  apply (calculate_params_fuel_mono _ (Nat.max fuel fuel')) in H; [| lia].
  apply (calculate_params_fuel_mono _ (Nat.max fuel fuel')) in H'; [| lia].
  congruence.
Qed.

(** ** Numeric bounds *)

Lemma PI_bounds : 3.1415 < PI < 3.1416.
Proof.
  pose proof (PI_2_3_7_ineq 2) as H.
  unfold sum_f_R0, tg_alt, PI_2_3_7_tg, Ratan_seq in H. simpl in H.
  lra.
Qed.

Lemma exp_square_step (x a b : R) :
  0 <= a -> a <= exp x -> b <= a * a -> b <= exp (x + x).
Proof.
  intros Ha Hx Hb. rewrite exp_plus.
  apply Rle_trans with (a * a); [exact Hb |].
  apply Rmult_le_compat; assumption.
Qed.

Ltac exp_halve a :=
  match goal with
  | |- _ <= exp ?x =>
      replace x with (x / 2 + x / 2) by lra;
      apply exp_square_step with a; [lra | | lra]
  end.

Ltac exp_base :=
  match goal with
  | |- _ <= exp ?x =>
      apply Rle_trans with (1 + x); [lra | apply exp_ineq1_le]
  end.

Lemma exp_three_halves_lower : 4.4 <= exp 1.5.
Proof.
  exp_halve 2.0987563. exp_halve 1.4487085. exp_halve 1.2036231.
  exp_halve 1.0970976. exp_halve 1.0474243. exp_halve 1.0234375.
  exp_base.
Qed.

Lemma exp_sample_lower : 0.2255 <= exp (- (1.485)).
Proof.
  exp_halve 0.4748917. exp_halve 0.6891239. exp_halve 0.8301349.
  exp_halve 0.9111174. exp_halve 0.9545247. exp_halve 0.9769978.
  exp_halve 0.9884320. exp_halve 0.9941992.
  exp_base.
Qed.

(** ** The sampling loop of the self-test *)

Lemma cos_positive_shift (x : R) (k : nat) :
  - (PI / 2) < x - 2 * INR k * PI < PI / 2 -> 0 < cos x.
Proof.
  intros [H1 H2].
  replace x with (x - 2 * INR k * PI + 2 * INR k * PI) by ring.
  rewrite cos_period. apply cos_gt_0; lra.
Qed.

Lemma cos_negative_shift (x : R) (k : nat) :
  PI / 2 < x - 2 * INR k * PI < 3 * (PI / 2) -> cos x < 0.
Proof.
  intros [H1 H2].
  replace x with (x - 2 * INR k * PI + 2 * INR k * PI) by ring.
  rewrite cos_period. apply cos_lt_0; lra.
Qed.

Lemma sample_phase_sign (i : nat) :
  (i < 100)%nat ->
  if positive_sample i
  then cos (11 / 2 * PI * (INR i / steps)) < 0
  else 0 < cos (11 / 2 * PI * (INR i / steps)).
Proof.
  intros Hi. unfold steps.
  pose proof PI_RGT_0 as Hpi.
  assert (Hr0 : 0 <= INR i) by apply pos_INR.
  set (r := INR i) in *.
  assert (Hcase :
    (positive_sample i = false /\ (i <= 9)%nat) \/
    (positive_sample i = true /\ (10 <= i <= 27)%nat) \/
    (positive_sample i = false /\ (28 <= i <= 45)%nat) \/
    (positive_sample i = true /\ (46 <= i <= 63)%nat) \/
    (positive_sample i = false /\ (64 <= i <= 81)%nat) \/
    (positive_sample i = true /\ (82 <= i <= 99)%nat)).
  { unfold positive_sample.
    destruct (Nat.leb_spec 10 i), (Nat.ltb_spec i 28), (Nat.leb_spec 46 i),
      (Nat.ltb_spec i 64), (Nat.leb_spec 82 i), (Nat.ltb_spec i 100);
      simpl; try lia; try (left; split; [reflexivity | lia]);
      try (right; left; split; [reflexivity | lia]);
      try (right; right; left; split; [reflexivity | lia]);
      try (right; right; right; left; split; [reflexivity | lia]);
      try (right; right; right; right; left; split; [reflexivity | lia]);
      try (right; right; right; right; right; split; [reflexivity | lia]). }
  assert (Hb : forall a b : nat, (a <= i <= b)%nat -> INR a <= r <= INR b).
  { intros a b [Ha Hb]. split; apply le_INR; assumption. }
  destruct Hcase as [[-> H] | [[-> H] | [[-> H] | [[-> H] | [[-> H] | [-> H]]]]]].
  - assert (H' : (0 <= i <= 9)%nat) by lia.
    apply (Hb 0 9)%nat in H'. simpl in H'.
    apply cos_positive_shift with O. simpl. split; nra.
  - apply (Hb 10 27)%nat in H. simpl in H.
    apply cos_negative_shift with O. simpl. split; nra.
  - apply (Hb 28 45)%nat in H. simpl in H.
    apply cos_positive_shift with 1%nat. simpl. split; nra.
  - apply (Hb 46 63)%nat in H. simpl in H.
    apply cos_negative_shift with 1%nat. simpl. split; nra.
  - apply (Hb 64 81)%nat in H. simpl in H.
    apply cos_positive_shift with 2%nat. simpl. split; nra.
  - apply (Hb 82 99)%nat in H. simpl in H.
    apply cos_negative_shift with 2%nat. simpl. split; nra.
Qed.

Section SamplingLoop.

Variable p : InterpolatorParams.
Variable b : nat -> bool.
Variable N : nat.
Hypothesis Hsign :
  forall i : nat, (i < N)%nat ->
    if b i then 0 < sample_value p i else sample_value p i < 0.

Lemma sample_state_at_S (k : nat) :
  sample_state_at p (S k) = sample_step p (sample_state_at p k) k.
Proof.
  unfold sample_state_at. rewrite seq_S, fold_left_app. reflexivity.
Qed.

Lemma crossings_le (j k : nat) :
  (j <= k)%nat -> (crossings b j <= crossings b k)%nat.
Proof.
  induction 1 as [| k Hle IH]; [lia |]. simpl. lia.
Qed.

Lemma sample_step_last (st : sample_state) (k : nat) :
  last_interpolation (sample_step p st k) = sample_value p k.
Proof. reflexivity. Qed.

Lemma sample_step_counter (st : sample_state) (k : nat) :
  (k < N)%nat ->
  (if sign_before b k then 0 < last_interpolation st
   else last_interpolation st < 0) ->
  rest_position_counter (sample_step p st k)
  = (rest_position_counter st
     + (if xorb (sign_before b k) (b k) then 1 else 0))%Z.
Proof.
  intros Hk Hlast. pose proof (Hsign k Hk) as Hs.
  unfold sample_step. simpl. fold (sample_value p k).
  destruct (sign_before b k), (b k); simpl;
    destruct (Rlt_dec _ _) as [Hlt | Hge]; try reflexivity; try lia;
    exfalso; nra.
Qed.

Lemma sample_step_detected (st : sample_state) (k : nat) :
  let st' := sample_step p st k in
  ((rest_position_counter st' <= 0)%Z /\
   detected_overshoot st' = detected_overshoot st) \/
  ((0 < rest_position_counter st')%Z /\
   Rabs (detected_overshoot st) <= Rabs (detected_overshoot st') /\
   Rabs (sample_value p k) <= Rabs (detected_overshoot st') /\
   (detected_overshoot st' = detected_overshoot st \/
    detected_overshoot st' = sample_value p k)).
Proof.
  unfold sample_step. simpl. fold (sample_value p k).
  set (c := if Rlt_dec (last_interpolation st * sample_value p k) 0
            then (rest_position_counter st + 1)%Z
            else rest_position_counter st).
  destruct (Z_gt_dec c 0) as [Hc | Hc].
  - right. split; [lia |].
    destruct (Rlt_dec (Rabs (detected_overshoot st)) (Rabs (sample_value p k)))
      as [Hlt | Hge].
    + split; [lra |]. split; [lra |]. right. reflexivity.
    + split; [lra |]. split; [lra |]. left. reflexivity.
  - left. split; [lia | reflexivity].
Qed.

Lemma sampling_invariant (k : nat) :
  (k <= N)%nat ->
  let st := sample_state_at p k in
  last_interpolation st
  = match k with O => -1 | S j => sample_value p j end /\
  rest_position_counter st = Z.of_nat (crossings b k) /\
  ((crossings b k = O /\ detected_overshoot st = 0) \/
   (exists j : nat,
       (j < k)%nat /\ (0 < crossings b (S j))%nat /\
       detected_overshoot st = sample_value p j)) /\
  (forall j : nat,
      (j < k)%nat -> (0 < crossings b (S j))%nat ->
      Rabs (sample_value p j) <= Rabs (detected_overshoot st)).
Proof.
  induction k as [| k IH]; intros Hk.
  - simpl. repeat split; auto.
    intros j Hj. lia.
  - destruct (IH ltac:(lia)) as (Hlast & Hcnt & Hdet & Hmax).
    cbv zeta. rewrite sample_state_at_S.
    set (st := sample_state_at p k) in *.
    assert (Hls : if sign_before b k then 0 < last_interpolation st
                  else last_interpolation st < 0).
    { rewrite Hlast. destruct k as [| j]; simpl; [lra |].
      apply Hsign. lia. }
    pose proof (sample_step_counter st k ltac:(lia) Hls) as Hc'.
    assert (Hcnt' : rest_position_counter (sample_step p st k)
                    = Z.of_nat (crossings b (S k))).
    { rewrite Hc', Hcnt. simpl crossings.
      destruct (xorb (sign_before b k) (b k)); lia. }
    split; [apply sample_step_last |]. split; [exact Hcnt' |].
    pose proof (sample_step_detected st k) as Hd. cbv zeta in Hd.
    rewrite Hcnt' in Hd.
    destruct Hd as [[Hz Hsame] | (Hpos & Hge1 & Hge2 & Hwhich)].
    + assert (Hz' : crossings b (S k) = O) by lia.
      assert (Hzk : crossings b k = O)
        by (pose proof (crossings_le k (S k)); lia).
      split.
      * left. split; [exact Hz' |]. rewrite Hsame.
        destruct Hdet as [[_ H0] | (j & Hj & Hcj & _)]; [exact H0 |].
        pose proof (crossings_le (S j) k). lia.
      * intros j Hj Hcj. pose proof (crossings_le (S j) (S k)). lia.
    + split.
      * right. destruct Hwhich as [Hold | Hnew].
        -- destruct Hdet as [[Hzk H0] | (j & Hj & Hcj & Hv)].
           ++ exfalso. rewrite Hold, H0, Rabs_R0 in Hge2.
              pose proof (Hsign k ltac:(lia)) as Hs.
              pose proof (Rabs_pos_lt (sample_value p k)) as Hp.
              destruct (b k); assert (sample_value p k <> 0) by lra;
                specialize (Hp H); lra.
           ++ exists j. repeat split; [lia | exact Hcj | congruence].
        -- exists k. repeat split; [lia | lia | exact Hnew].
      * intros j Hj Hcj.
        destruct (Nat.eq_dec j k) as [-> | Hne]; [exact Hge2 |].
        apply Rle_trans with (Rabs (detected_overshoot st)); [| exact Hge1].
        apply Hmax; [lia | exact Hcj].
Qed.

End SamplingLoop.

(** ** The self-test settings *)

Lemma test_omega : calculate_omega test_settings = 11 / 2 * PI.
Proof. unfold calculate_omega, test_settings. simpl. lra. Qed.

Lemma test_half_period : PI / (11 / 2 * PI) = 2 / 11.
Proof. field. apply PI_neq0. Qed.

Lemma sqrt_3_upper : sqrt 3 < 1.7321.
Proof.
  assert (H3 : 0 <= 3) by lra.
  pose proof (sqrt_sqrt 3 H3) as Hs.
  pose proof (sqrt_pos 3) as Hp.
  destruct (Rlt_le_dec (sqrt 3) 1.7321) as [Hlt | Hle]; [exact Hlt | nra].
Qed.

(** The peak of the test frequency at damping 9.9 is below the target. *)
Lemma reference_peak_bound : interpolation_at (11 / 2 * PI) 9.9 <= 0.1973.
Proof.
  destruct PI_bounds as [Hp1 Hp2].
  assert (Hw : 0 < 11 / 2 * PI) by lra.
  assert (Hg : 0 < 9.9) by lra.
  rewrite peak_value.
  set (ts := calculate_turning_time (11 / 2 * PI) 9.9).
  assert (Hloc : 5 / 33 < ts).
  { apply turning_time_after; try assumption.
    - rewrite test_half_period. lra.
    - unfold curve_slope. apply Rmult_lt_0_compat; [apply exp_pos |].
      replace (11 / 2 * PI * (5 / 33)) with (PI - PI / 6) by field.
      rewrite Rtrigo_facts.cos_pi_minus, sin_PI_x, cos_PI6, sin_PI6.
      pose proof sqrt_3_upper. lra. }
  assert (Hamp : - cos (11 / 2 * PI * ts) <= 0.868).
  { pose proof (turning_amplitude _ _ Hw Hg) as Ha. fold ts in Ha.
    destruct (turning_cos_sin _ _ Hw Hg) as [Hc _]. fold ts in Hc.
    set (c := cos (11 / 2 * PI * ts)) in *.
    assert (Hw2 : 11 / 2 * PI * (11 / 2 * PI) < 298.56) by nra.
    destruct (Rle_lt_dec (- c) 0.868) as [Hle | Hgt]; [exact Hle | exfalso].
    assert (Hc2 : 0.753424 < c * c) by nra.
    nra. }
  assert (Hexp : exp (- (9.9) * ts) <= / 4.4).
  { apply Rle_trans with (exp (- (1.5))).
    - left. apply exp_increasing. lra.
    - rewrite exp_Ropp. apply Rinv_le_contravar; [lra | apply exp_three_halves_lower]. }
  destruct (turning_cos_sin _ _ Hw Hg) as [Hc _]. fold ts in Hc.
  pose proof (exp_pos (- (9.9) * ts)) as He.
  apply Rle_trans with (/ 4.4 * 0.868); [| lra].
  apply Rmult_le_compat; lra.
Qed.

Lemma exp_minus_one_lower : / 3 <= exp (- (1)).
Proof.
  rewrite exp_Ropp. apply Rinv_le_contravar; [apply exp_pos | apply exp_le_3].
Qed.

Lemma test_naive_gamma_lower : 5.5 < naive_gamma test_settings (11 / 2 * PI).
Proof.
  destruct PI_bounds as [Hp1 Hp2].
  assert (Hos : 0 < overshoot test_settings < 1) by (simpl; lra).
  assert (Hw : 0 < 11 / 2 * PI) by lra.
  pose proof (naive_gamma_envelope test_settings _ Hos Hw) as He.
  rewrite test_half_period in He. simpl in He.
  destruct (Rlt_le_dec 5.5 (naive_gamma test_settings (11 / 2 * PI)))
    as [Hlt | Hle]; [exact Hlt | exfalso].
  pose proof exp_minus_one_lower as H1.
  assert (H2 : exp (- (1)) <= exp (- naive_gamma test_settings (11 / 2 * PI) * (2 / 11))).
  { apply exp_monotone. lra. }
  lra.
Qed.

Lemma step_factor_upper : exp (precision * (PI / (11 / 2 * PI))) <= 550 / 549.
Proof.
  rewrite test_half_period. unfold precision.
  replace (0.01 * (2 / 11)) with (- - (1 / 550)) by lra.
  rewrite exp_Ropp.
  replace (550 / 549) with (/ (549 / 550)) by lra.
  apply Rinv_le_contravar; [lra |].
  apply Rle_trans with (1 + - (1 / 550)); [lra | apply exp_ineq1_le].
Qed.

Lemma cos_lower_parabola (a : R) :
  - PI / 2 <= a -> a <= PI / 2 -> 1 - a * a / 2 <= cos a.
Proof.
  intros H1 H2. destruct (cos_bound a 0 H1 H2) as [Hlo _].
  unfold cos_approx, cos_term in Hlo. simpl in Hlo. lra.
Qed.

Section TestRun.

Variable g : R.
Hypothesis Hseed : naive_gamma test_settings (11 / 2 * PI) <= g.
Hypothesis Hnext : interpolation_at (11 / 2 * PI) (g + 1 * precision) < 0.2.
Hypothesis Hcur :
  0.2 < exp (precision * (PI / (11 / 2 * PI))) * interpolation_at (11 / 2 * PI) g.

Lemma test_omega_positive : 0 < 11 / 2 * PI.
Proof. pose proof PI_RGT_0. lra. Qed.

Lemma found_gamma_lower : 5.5 < g.
Proof. pose proof test_naive_gamma_lower. lra. Qed.

Lemma found_peak_bounds : 0.1996 < interpolation_at (11 / 2 * PI) g < 0.2004.
Proof.
  pose proof step_factor_upper as HE.
  pose proof (exp_pos (precision * (PI / (11 / 2 * PI)))) as HE0.
  pose proof found_gamma_lower as Hg.
  pose proof precision_positive as Hp.
  pose proof (peak_positive _ test_omega_positive g ltac:(lra)) as HP.
  pose proof (peak_positive _ test_omega_positive (g + 1 * precision) ltac:(lra)) as HP'.
  pose proof (peak_step _ test_omega_positive g (1 * precision) ltac:(lra) ltac:(lra))
    as Hst.
  replace (1 * precision * (PI / (11 / 2 * PI)))
    with (precision * (PI / (11 / 2 * PI))) in Hst by ring.
  set (E := exp (precision * (PI / (11 / 2 * PI)))) in *.
  split; nra.
Qed.

Lemma found_gamma_upper : g < 9.9.
Proof.
  destruct found_peak_bounds as [Hlo _].
  pose proof reference_peak_bound as Href.
  destruct (Rlt_le_dec g 9.9) as [Hlt | Hle]; [exact Hlt | exfalso].
  destruct Hle as [Hlt | Heq].
  - pose proof (peak_decreasing _ test_omega_positive 9.9 g ltac:(lra) Hlt). lra.
  - rewrite <- Heq in Hlo. lra.
Qed.

Lemma sample_value_form (i : nat) :
  sample_value (mkParams (11 / 2 * PI) g) i
  = - (exp (- g * (INR i / steps)) * cos (11 / 2 * PI * (INR i / steps))).
Proof.
  unfold sample_value, calculate_interpolation. simpl.
  apply interpolation_minus_one.
Qed.

Lemma sample_signs (i : nat) :
  (i < 100)%nat ->
  if positive_sample i
  then 0 < sample_value (mkParams (11 / 2 * PI) g) i
  else sample_value (mkParams (11 / 2 * PI) g) i < 0.
Proof.
  intros Hi. rewrite sample_value_form.
  pose proof (sample_phase_sign i Hi) as Hs.
  pose proof (exp_pos (- g * (INR i / steps))) as He.
  destruct (positive_sample i); nra.
Qed.

Lemma sample_time_nonneg (i : nat) : 0 <= INR i / steps.
Proof.
  unfold steps. pose proof (pos_INR i). lra.
Qed.

Lemma sample_upper (i : nat) : sample_value (mkParams (11 / 2 * PI) g) i < 0.2004.
Proof.
  destruct found_peak_bounds as [_ Hup].
  pose proof found_gamma_lower as Hg.
  pose proof (peak_is_global _ test_omega_positive g (INR i / steps)
                ltac:(lra) (sample_time_nonneg i)) as Hglob.
  unfold sample_value, calculate_interpolation. simpl.
  unfold interpolation_at in Hup. lra.
Qed.

Lemma sample_late_lower (i : nat) :
  (28 <= i)%nat -> - 0.13 < sample_value (mkParams (11 / 2 * PI) g) i.
Proof.
  intros Hi. rewrite sample_value_form.
  assert (Ht : 0.28 <= INR i / steps).
  { apply (le_INR 28 i) in Hi. simpl in Hi. unfold steps. lra. }
  set (t := INR i / steps) in *.
  set (g0 := naive_gamma test_settings (11 / 2 * PI)) in *.
  pose proof test_naive_gamma_lower as Hg0. fold g0 in Hg0.
  assert (Hos : 0 < overshoot test_settings < 1) by (simpl; lra).
  pose proof (naive_gamma_envelope test_settings _ Hos test_omega_positive) as Henv.
  rewrite test_half_period in Henv. simpl in Henv. fold g0 in Henv.
  assert (H1 : exp (- g * t) <= exp (- g0 * (2 / 11) + - (0.54)))
    by (apply exp_monotone; nra).
  rewrite exp_plus, Henv, exp_Ropp in H1.
  assert (H2 : / exp 0.54 <= / 1.54).
  { apply Rinv_le_contravar; [lra |].
    apply Rle_trans with (1 + 0.54); [lra | apply exp_ineq1_le]. }
  pose proof (exp_pos (- g * t)) as He.
  destruct (COS_bound (11 / 2 * PI * t)) as [_ Hc].
  assert (exp (- g * t) * cos (11 / 2 * PI * t) <= exp (- g * t)) by nra.
  lra.
Qed.

Lemma sample_fifteen : 0.191 <= sample_value (mkParams (11 / 2 * PI) g) 15.
Proof.
  rewrite sample_value_form.
  destruct PI_bounds as [Hp1 Hp2].
  replace (INR 15 / steps) with 0.15 by (unfold steps; simpl; lra).
  replace (11 / 2 * PI * 0.15) with (PI - 0.175 * PI) by lra.
  rewrite Rtrigo_facts.cos_pi_minus.
  pose proof (cos_lower_parabola (0.175 * PI) ltac:(lra) ltac:(lra)) as Hc.
  assert (Hc' : 0.8488 <= cos (0.175 * PI)) by nra.
  pose proof found_gamma_upper as Hup.
  assert (He : 0.2255 <= exp (- g * 0.15)).
  { apply Rle_trans with (exp (- (1.485))); [apply exp_sample_lower |].
    apply exp_monotone. lra. }
  nra.
Qed.

End TestRun.

Lemma crossings_positive_sample (j : nat) :
  (0 < crossings positive_sample (S j))%nat <-> (10 <= j)%nat.
Proof.
  split.
  - intros H. destruct (Nat.le_gt_cases 10 j) as [Hle | Hlt]; [exact Hle |].
    pose proof (crossings_le positive_sample (S j) 10 ltac:(lia)) as Hc.
    change (crossings positive_sample 10) with O in Hc. lia.
  - intros H.
    pose proof (crossings_le positive_sample 11 (S j) ltac:(lia)) as Hc.
    change (crossings positive_sample 11) with 1%nat in Hc. lia.
Qed.

(** The sampling of the self-test on a damping with the properties of a
    search result. *)
Lemma sample_loop_outcome (g : R) :
  naive_gamma test_settings (11 / 2 * PI) <= g ->
  interpolation_at (11 / 2 * PI) (g + 1 * precision) < 0.2 ->
  0.2 < exp (precision * (PI / (11 / 2 * PI))) * interpolation_at (11 / 2 * PI) g ->
  let p := mkParams (11 / 2 * PI) g in
  (forall i : nat, (i < 100)%nat ->
     if positive_sample i then 0 < sample_value p i else sample_value p i < 0) /\
  rest_position_counter (sample_loop p) = 5%Z /\
  (exists j : nat, (10 <= j < 100)%nat /\
     detected_overshoot (sample_loop p) = sample_value p j) /\
  (forall j : nat, (10 <= j < 100)%nat ->
     Rabs (sample_value p j) <= Rabs (detected_overshoot (sample_loop p))) /\
  0.191 <= detected_overshoot (sample_loop p) < 0.2004.
Proof.
  intros Hseed Hnext Hcur p. unfold sample_loop.
  pose proof (sample_signs g) as Hsigns. fold p in Hsigns.
  destruct (sampling_invariant p positive_sample 100 Hsigns 100 (le_n 100))
    as (_ & Hcnt & Hdet & Hmax).
  set (st := sample_state_at p 100) in *. clearbody st.
  change (crossings positive_sample 100) with 5%nat in *.
  assert (Hj : exists j : nat, (10 <= j < 100)%nat /\
                 detected_overshoot st = sample_value p j).
  { destruct Hdet as [[H0 _] | (j & Hlt & Hc & Hv)]; [discriminate |].
    exists j. split; [| exact Hv].
    apply crossings_positive_sample in Hc. lia. }
  assert (Hall : forall j : nat, (10 <= j < 100)%nat ->
            Rabs (sample_value p j) <= Rabs (detected_overshoot st)).
  { intros j [H1 H2]. apply Hmax; [exact H2 |].
    apply crossings_positive_sample. exact H1. }
  split; [exact Hsigns |]. split; [exact Hcnt |]. split; [exact Hj |].
  split; [exact Hall |].
  destruct Hj as (j & [Hj1 Hj2] & Hv).
  pose proof (Hall 15%nat ltac:(lia)) as H15.
  pose proof (sample_fifteen g Hseed Hnext Hcur) as Hf. fold p in Hf.
  rewrite (Rabs_pos_eq (sample_value p 15)) in H15 by lra.
  rewrite Hv in H15. rewrite Hv.
  pose proof (sample_upper g Hseed Hnext Hcur j) as Hup. fold p in Hup.
  assert (Hlow : - 0.13 < sample_value p j).
  { pose proof (Hsigns j Hj2) as Hs.
    destruct (positive_sample j) eqn:Hb; [lra |].
    apply (sample_late_lower g Hseed).
    unfold positive_sample in Hb.
    destruct (Nat.leb_spec 10 j), (Nat.ltb_spec j 28); simpl in Hb;
      try discriminate; lia. }
  split; [| exact Hup].
  unfold Rabs in H15. destruct (Rcase_abs (sample_value p j)); lra.
Qed.

(** C1: for the settings [{rest_position_runs = 4, overshoot = 0.2}] the
    derivation returns, and on the 100 samples [t = i / 100] of the derived
    curve [value - 1] is negative on the samples 0..9 (the initial trough) and
    changes sign at the samples 10, 28, 46, 64 and 82 only: the counter of the
    self-test ends at 5, the sign change that leaves the trough and exactly 4
    after it.  The detected overshoot is the sample of largest absolute value
    from the first sign change on, and it is within 0.01 of 0.2; both checks
    of the self-test pass. *)
Theorem self_test_round_trip :
  exists (fuel : nat) (p : InterpolatorParams),
    calculate_params fuel test_settings = Some p /\
    (forall (fuel' : nat) (p' : InterpolatorParams),
        calculate_params fuel' test_settings = Some p' -> p' = p) /\
    (forall i : nat, (i < 100)%nat ->
        if positive_sample i then 0 < sample_value p i else sample_value p i < 0) /\
    rest_position_counter (sample_loop p) = 5%Z /\
    IZR (rest_position_counter (sample_loop p) - 1) = 4 /\
    (exists j : nat, (10 <= j < 100)%nat /\
        detected_overshoot (sample_loop p) = sample_value p j) /\
    (forall j : nat, (10 <= j < 100)%nat ->
        Rabs (sample_value p j) <= Rabs (detected_overshoot (sample_loop p))) /\
    Rabs (Rabs (detected_overshoot (sample_loop p)) - 0.2) <= 0.01 /\
    failure_flag test_settings (sample_loop p) = false.
Proof.
  destruct test_settings_valid as [Hos Hr].
  destruct (calculate_params_terminates test_settings Hos Hr)
    as (fuel & p & H & _ & _).
  exists fuel, p. split; [exact H |]. split.
  { intros fuel' p' H'.
    apply (calculate_params_fuel_mono _ (Nat.max fuel fuel')) in H; [| lia].
    apply (calculate_params_fuel_mono _ (Nat.max fuel fuel')) in H'; [| lia].
    congruence. }
  destruct (calculate_params_some _ _ _ H) as [Hw Hg].
  pose proof (calculate_gamma_result test_settings _ Hos
                (calculate_omega_positive _ Hr) _ _ Hg) as (Hseed & Hnext & Hcur).
  rewrite test_omega in *. simpl overshoot in *.
  destruct p as [w g]. simpl in Hw, Hseed, Hnext, Hcur. subst w.
  destruct (sample_loop_outcome g Hseed Hnext Hcur)
    as (Hsigns & Hcnt & Hj & Hall & Hd1 & Hd2).
  split; [exact Hsigns |]. split; [exact Hcnt |].
  split; [rewrite Hcnt; simpl; lra |]. split; [exact Hj |].
  split; [exact Hall |].
  set (st := sample_loop (mkParams (11 / 2 * PI) g)) in *.
  clearbody st.
  split.
  - rewrite (Rabs_pos_eq (detected_overshoot st)) by lra.
    apply Rabs_le. lra.
  - unfold failure_flag. rewrite Hcnt.
    change (rest_position_runs test_settings) with 4.
    change (overshoot test_settings) with 0.2.
    destruct (Req_dec_T _ _) as [_ | Hne]; [| exfalso; apply Hne; simpl; lra].
    destruct (Rgt_dec _ _) as [Hgt | _]; [| reflexivity].
    exfalso. unfold test_precision in Hgt.
    assert (Rabs (0.2 - detected_overshoot st) <= 0.009) by (apply Rabs_le; lra).
    lra.
Qed.

(** * Further properties of the core *)

(** ** The turning time and the peak in closed form *)

Section TurningClosedForm.

Variables w g : R.
Hypothesis Hw : 0 < w.
Hypothesis Hg : 0 < g.

Lemma double_turning_angle :
  2 * atan (turning_arg w g) = - atan (g / w).
Proof.
  destruct (turning_atan_bounds w g Hw Hg) as [Ha1 Ha2].
  pose proof (turning_balance w g Hw Hg) as Hb.
  rewrite (turning_phase w g Hw), neg_cos, neg_sin in Hb.
  set (a := 2 * atan (turning_arg w g)) in *.
  assert (Hc : 0 < cos a) by (apply cos_gt_0; unfold a; lra).
  assert (Ht : tan a = - (g / w)).
  { unfold tan.
    apply Rmult_eq_reg_r with (w * cos a); [| nra].
    field_simplify; [| lra | lra]. lra. }
  rewrite <- atan_opp, <- Ht. symmetry. apply atan_tan. unfold a. lra.
Qed.

Lemma turning_time_as_atan :
  calculate_turning_time w g = (PI - atan (g / w)) / w.
Proof.
  apply Rmult_eq_reg_l with w; [| lra].
  rewrite (turning_phase w g Hw), double_turning_angle. field. lra.
Qed.

Lemma turning_cosine :
  cos (w * calculate_turning_time w g) = - (w / sqrt (g ^ 2 + w ^ 2)).
Proof.
  pose proof (turning_amplitude w g Hw Hg) as Ha.
  destruct (turning_cos_sin w g Hw Hg) as [Hc _].
  pose proof (hypotenuse_square w g) as Hs.
  destruct (hypotenuse_bounds w g Hw Hg) as [Hr _].
  set (c := cos (w * calculate_turning_time w g)) in *.
  set (r := sqrt (g ^ 2 + w ^ 2)) in *.
  assert (Hr0 : 0 < r) by lra.
  assert (Hcr : c * r = - w).
  { assert (Hsq : (c * r) * (c * r) = w * w).
    { replace (c * r * (c * r)) with (c * c * (r * r)) by ring.
      rewrite Hs. rewrite <- Ha. ring. }
    assert (Hneg : c * r < 0) by nra.
    nra. }
  apply Rmult_eq_reg_r with r; [| lra].
  rewrite Hcr. field. lra.
Qed.

End TurningClosedForm.

(** X1: for omega > 0 and gamma > 0 the turning time is at least the quarter
    period [PI / (2 omega)] and at most the half period [PI / omega], the
    time [calculate_gamma] takes as its first estimate: the adjusted time
    never exceeds the naive one and is never less than half of it. *)
Theorem turning_time_within_half_period :
  forall w g : R,
    0 < w -> 0 < g ->
    PI / (2 * w) <= calculate_turning_time w g <= PI / w.
Proof.
  intros w g Hw Hg.
  destruct (turning_time_bounds w g Hw Hg) as [Hlo Hhi].
  split; left; assumption.
Qed.

Lemma turning_time_within_half_period_witness :
  0 < 3 /\ 0 < 2 /\
  PI / (2 * 3) <= calculate_turning_time 3 2 <= PI / 3.
Proof.
  split; [lra |]. split; [lra |].
  apply (turning_time_within_half_period 3 2); lra.
Defined.

(** X2: the value of the curve at its turning time, in closed form:
    [1 + exp (- gamma (PI - atan (gamma / omega)) / omega)
         * omega / sqrt (gamma^2 + omega^2)]. *)
Theorem peak_closed_form :
  forall w g : R,
    0 < w -> 0 < g ->
    calculate_interpolation_raw w g (calculate_turning_time w g)
    = 1 + exp (- g * ((PI - atan (g / w)) / w)) * (w / sqrt (g ^ 2 + w ^ 2)).
Proof.
  intros w g Hw Hg. unfold calculate_interpolation_raw.
  rewrite (turning_cosine w g Hw Hg), (turning_time_as_atan w g Hw Hg). ring.
Qed.

Lemma peak_closed_form_witness :
  0 < 3 /\ 0 < 2 /\
  calculate_interpolation_raw 3 2 (calculate_turning_time 3 2)
  = 1 + exp (- (2) * ((PI - atan (2 / 3)) / 3)) * (3 / sqrt (2 ^ 2 + 3 ^ 2)).
Proof.
  split; [lra |]. split; [lra |].
  apply (peak_closed_form 3 2); lra.
Defined.

(** X3: for omega > 0 and gamma > 0 the curve is, at every time [t >= 0]
    other than the turning time, strictly below its value at the turning
    time: the turning time is the time of the maximal overshoot. *)
Theorem turning_time_global_maximum :
  forall w g t : R,
    0 < w -> 0 < g -> 0 <= t -> t <> calculate_turning_time w g ->
    calculate_interpolation_raw w g t
    < calculate_interpolation_raw w g (calculate_turning_time w g).
Proof.
  intros w g t Hw Hg Ht Hne.
  destruct (turning_time_bounds w g Hw Hg) as [Hb1 Hb2].
  pose proof (half_period_positive w Hw) as Hpw.
  assert (Hpw2 : 0 < PI / (2 * w))
    by (apply Rdiv_lt_0_compat; [apply PI_RGT_0 | lra]).
  destruct (Rle_lt_dec t (PI / w)) as [Hle | Hgt].
  - destruct (Rtotal_order t (calculate_turning_time w g)) as [Hlt | [Heq | Hgt]].
    + apply curve_rises_to_turning; auto. lra.
    + contradiction.
    + apply curve_falls_from_turning; auto. lra.
  - apply Rle_lt_trans with (calculate_interpolation_raw w g (PI / w)).
    + rewrite half_period_value by exact Hw. unfold calculate_interpolation_raw.
      pose proof (exp_decreasing_arg g _ _ Hg Hgt) as He.
      pose proof (exp_pos (- g * t)) as Hp.
      destruct (COS_bound (w * t)) as [Hc1 Hc2].
      assert (0 <= exp (- g * t) * (1 + cos (w * t)))
        by (apply Rmult_le_pos; lra).
      lra.
    + apply curve_falls_from_turning; auto. lra.
Qed.

Lemma turning_time_global_maximum_witness :
  calculate_interpolation_raw 3 2 0
  < calculate_interpolation_raw 3 2 (calculate_turning_time 3 2).
Proof.
  assert (Hb : PI / (2 * 3) < calculate_turning_time 3 2 < PI / 3)
    by (apply turning_time_bounds; lra).
  assert (Hp : 0 < PI / (2 * 3))
    by (apply Rdiv_lt_0_compat; [apply PI_RGT_0 | lra]).
  apply (turning_time_global_maximum 3 2 0); lra.
Defined.

(** X4: for omega > 0 the peak overshoot (the curve at the turning time,
    minus 1) lies between 0 and 1 and does not rise when the damping
    grows. *)
Theorem peak_never_rises_with_damping :
  forall w g1 g2 : R,
    0 < w -> 0 < g1 -> g1 <= g2 ->
    0 <= interpolation_at w g2 /\
    interpolation_at w g2 <= interpolation_at w g1 /\
    interpolation_at w g1 <= 1.
Proof.
  intros w g1 g2 Hw Hg1 Hle. split; [| split].
  - left. apply peak_positive; lra.
  - destruct Hle as [Hlt | ->]; [| apply Rle_refl].
    left. apply peak_decreasing; assumption.
  - left. apply Rlt_trans with (exp (- g1 * (PI / (2 * w)))).
    + apply peak_below_envelope; assumption.
    + rewrite <- exp_0. apply exp_increasing.
      assert (0 < PI / (2 * w))
        by (apply Rdiv_lt_0_compat; [apply PI_RGT_0 | lra]).
      nra.
Qed.

Lemma peak_never_rises_with_damping_witness :
  0 < 3 /\ 0 < 1 /\ 1 <= 2 /\
  interpolation_at 3 2 <= interpolation_at 3 1.
Proof.
  split; [lra |]. split; [lra |]. split; [lra |].
  apply (peak_never_rises_with_damping 3 1 2); lra.
Defined.

(** ** Range, cost and accuracy of the damping search *)

Lemma exp_inverse_bound (x : R) : x < 1 -> exp x <= / (1 - x).
Proof.
  intros Hx.
  replace x with (- - x) at 1 by ring. rewrite exp_Ropp.
  apply Rinv_le_contravar; [lra |].
  apply Rle_trans with (1 + - x); [lra | apply exp_ineq1_le].
Qed.

Section SearchRange.

Variable settings : InterpolatorSettings.
Variable w : R.
Hypothesis Hos : 0 < overshoot settings < 1.
Hypothesis Hw : 0 < w.

(** From twice the naive damping on, the peak is below the target. *)
Lemma peak_below_target_far (G : R) :
  2 * naive_gamma settings w <= G ->
  interpolation_at w G < overshoot settings.
Proof.
  intros HG.
  pose proof (naive_gamma_positive settings w Hos Hw) as Hg0.
  pose proof (half_period_positive w Hw) as Hh.
  apply Rlt_le_trans with (exp (- G * (PI / (2 * w)))).
  - apply peak_below_envelope; [exact Hw | lra].
  - rewrite <- (naive_gamma_envelope settings w Hos Hw).
    apply exp_monotone.
    replace (PI / (2 * w)) with (PI / w / 2) by (field; lra). nra.
Qed.

Lemma search_result_upper (fuel : nat) (g : R) :
  calculate_gamma settings w fuel = Some g ->
  g < 2 * naive_gamma settings w + 2 * precision.
Proof.
  intros H.
  destruct (calculate_gamma_result settings w Hos Hw fuel g H) as (Hge & _ & Hcur).
  pose proof (naive_gamma_positive settings w Hos Hw) as Hg0.
  pose proof (half_period_positive w Hw) as Hh.
  pose proof (peak_below_envelope w Hw g ltac:(lra)) as Henv.
  pose proof (exp_pos (precision * (PI / w))) as HE.
  rewrite <- (naive_gamma_envelope settings w Hos Hw) in Hcur.
  assert (Hlt : exp (- naive_gamma settings w * (PI / w))
                < exp (precision * (PI / w) + - g * (PI / (2 * w)))).
  { rewrite exp_plus. apply Rlt_trans with (1 := Hcur).
    apply Rmult_lt_compat_l; assumption. }
  apply exp_lt_inv in Hlt.
  replace (PI / (2 * w)) with (PI / w / 2) in Hlt by (field; lra).
  nra.
Qed.

Lemma search_within_bound (n : nat) :
  naive_gamma settings w <= INR n * precision ->
  exists g : R, calculate_gamma settings w (S n) = Some g.
Proof.
  intros Hn. unfold calculate_gamma.
  rewrite (search_sign_up settings w Hos Hw).
  apply (tune_terminates settings w Hw).
  - apply initial_state_tracked.
  - apply naive_gamma_positive; assumption.
  - left. apply peak_below_target_far.
    change (st_gamma (initial_state settings w)) with (naive_gamma settings w).
    lra.
Qed.

Lemma search_result_peak (fuel : nat) (g : R) :
  calculate_gamma settings w fuel = Some g ->
  overshoot settings < exp (precision * (PI / w)) * interpolation_at w g /\
  interpolation_at w g < exp (precision * (PI / w)) * overshoot settings.
Proof.
  intros H.
  destruct (calculate_gamma_result settings w Hos Hw fuel g H)
    as (Hge & Hnext & Hcur).
  pose proof (naive_gamma_positive settings w Hos Hw) as Hg0.
  pose proof precision_positive as Hp.
  split; [exact Hcur |].
  pose proof (peak_step w Hw g (1 * precision) ltac:(lra) ltac:(lra)) as Hst.
  replace (1 * precision * (PI / w)) with (precision * (PI / w)) in Hst by ring.
  apply Rle_lt_trans with (1 := Hst).
  apply Rmult_lt_compat_l; [apply exp_pos | exact Hnext].
Qed.

End SearchRange.

(** X5: for ordinary settings, [0.001 <= overshoot <= 0.99] and
    [0 <= rest_position_runs <= 1000], the direction of the search is +1,
    every gamma passed to [calculate_turning_time] is strictly positive, and
    the damping the search returns is at least the naive one and below twice
    the naive one plus two steps. *)
Theorem search_only_raises_damping :
  forall settings : InterpolatorSettings,
    0.001 <= overshoot settings <= 0.99 ->
    0 <= rest_position_runs settings <= 1000 ->
    search_sign settings (calculate_omega settings) = 1 /\
    (forall fuel : nat,
        Forall (fun g => 0 < g)
          (calculate_gamma_calls settings (calculate_omega settings) fuel)) /\
    (forall (fuel : nat) (g : R),
        calculate_gamma settings (calculate_omega settings) fuel = Some g ->
        naive_gamma settings (calculate_omega settings) <= g
        < 2 * naive_gamma settings (calculate_omega settings) + 2 * precision).
Proof.
  intros settings Hrange [Hr _].
  assert (Hos : 0 < overshoot settings < 1) by lra.
  pose proof (calculate_omega_positive settings Hr) as Hw.
  split; [| split].
  - apply search_sign_up; assumption.
  - intros fuel. apply calculate_gamma_calls_positive; assumption.
  - intros fuel g H. split.
    + apply (calculate_gamma_result settings _ Hos Hw fuel g H).
    + apply (search_result_upper settings _ Hos Hw fuel g H).
Qed.

Lemma search_only_raises_damping_witness :
  0.001 <= overshoot test_settings <= 0.99 /\
  0 <= rest_position_runs test_settings <= 1000 /\
  search_sign test_settings (calculate_omega test_settings) = 1.
Proof.
  split; [simpl; lra |]. split; [simpl; lra |].
  apply (search_only_raises_damping test_settings); simpl; lra.
Defined.

(** X6: for overshoot in (0, 1) and omega > 0 the loop of the search breaks
    within [n + 1] iterations as soon as [n] steps of [precision] reach the
    naive damping: the number of iterations is at most
    [naive gamma / 0.01 + 2]. *)
Theorem search_iteration_bound :
  forall (settings : InterpolatorSettings) (w : R) (n : nat),
    0 < overshoot settings < 1 -> 0 < w ->
    naive_gamma settings w <= INR n * precision ->
    exists g : R, calculate_gamma settings w (S n) = Some g.
Proof.
  intros settings w n Hos Hw Hn.
  apply search_within_bound; assumption.
Qed.

Lemma test_naive_gamma_upper : naive_gamma test_settings (11 / 2 * PI) <= 20.
Proof.
  assert (Hos : 0 < overshoot test_settings < 1) by (simpl; lra).
  assert (Hw : 0 < 11 / 2 * PI) by (pose proof PI_RGT_0; lra).
  pose proof (naive_gamma_envelope test_settings _ Hos Hw) as He.
  rewrite test_half_period in He. simpl in He.
  destruct (Rle_lt_dec (naive_gamma test_settings (11 / 2 * PI)) 20)
    as [Hle | Hgt]; [exact Hle | exfalso].
  assert (H1 : exp (- naive_gamma test_settings (11 / 2 * PI) * (2 / 11))
               <= exp (- (20 / 11 + 20 / 11)))
    by (apply exp_monotone; lra).
  rewrite exp_Ropp, exp_plus in H1.
  assert (H2 : 1 + 20 / 11 <= exp (20 / 11)) by apply exp_ineq1_le.
  assert (H3 : 7 <= exp (20 / 11) * exp (20 / 11)) by nra.
  assert (H4 : / (exp (20 / 11) * exp (20 / 11)) <= / 7)
    by (apply Rinv_le_contravar; lra).
  lra.
Qed.

Lemma search_iteration_bound_witness :
  exists g : R, calculate_gamma test_settings (11 / 2 * PI) 2001 = Some g.
Proof.
  assert (Hw : 0 < 11 / 2 * PI) by (pose proof PI_RGT_0; lra).
  apply (search_iteration_bound test_settings (11 / 2 * PI) 2000);
    [simpl; lra | exact Hw |].
  replace (INR 2000) with 2000 by (rewrite INR_IZR_INZ; reflexivity).
  pose proof test_naive_gamma_upper. unfold precision. lra.
Defined.

(** X7: for ordinary settings, [0.001 <= overshoot <= 0.99] and
    [0 <= rest_position_runs <= 1000], the parameters [calculate_params]
    returns reach the requested overshoot up to a relative error below
    1/149: the peak of the derived curve differs from the target by less
    than [overshoot / 149]. *)
Theorem derived_overshoot_accuracy :
  forall (fuel : nat) (s : InterpolatorSettings) (p : InterpolatorParams),
    0.001 <= overshoot s <= 0.99 ->
    0 <= rest_position_runs s <= 1000 ->
    calculate_params fuel s = Some p ->
    Rabs (overshoot s - interpolation_at (omega p) (gamma p)) < overshoot s / 149.
Proof.
  intros fuel s p Hrange [Hr _] H.
  assert (Hos : 0 < overshoot s < 1) by lra.
  destruct (calculate_params_some _ _ _ H) as [Hw Hg]. rewrite Hw.
  pose proof (calculate_omega_positive s Hr) as Hwpos.
  destruct (search_result_peak s _ Hos Hwpos _ _ Hg) as [Hlo Hhi].
  pose proof (half_period_positive _ Hwpos) as Hh.
  assert (Hhalf : PI / calculate_omega s <= 2 / 3).
  { apply Rmult_le_reg_r with (calculate_omega s); [exact Hwpos |].
    unfold Rdiv at 1. rewrite Rmult_assoc, Rinv_l by lra.
    unfold calculate_omega. simpl. pose proof PI_RGT_0. nra. }
  assert (HE : exp (precision * (PI / calculate_omega s)) <= 150 / 149).
  { apply Rle_trans with (exp (1 / 150)).
    - apply exp_monotone. unfold precision. lra.
    - replace (150 / 149) with (/ (1 - 1 / 150)) by lra.
      apply exp_inverse_bound. lra. }
  pose proof (exp_pos (precision * (PI / calculate_omega s))) as HE0.
  set (E := exp (precision * (PI / calculate_omega s))) in *.
  set (P := interpolation_at (calculate_omega s) (gamma p)) in *.
  assert (HP : 0 < P) by nra.
  apply Rabs_def1; nra.
Qed.

Lemma derived_overshoot_accuracy_witness :
  exists (fuel : nat) (p : InterpolatorParams),
    calculate_params fuel test_settings = Some p /\
    Rabs (overshoot test_settings - interpolation_at (omega p) (gamma p))
    < overshoot test_settings / 149.
Proof.
  destruct (calculate_params_terminates test_settings
              (proj1 test_settings_valid) (proj2 test_settings_valid))
    as (fuel & p & H & _).
  exists fuel, p. split; [exact H |].
  apply (derived_overshoot_accuracy fuel test_settings p); [simpl; lra | simpl; lra |].
  exact H.
Defined.

(** X8: with an overshoot of 1 or more (and omega > 0) the naive damping is
    not positive, and it is the damping of the first call of
    [calculate_turning_time]: the bound [overshoot < 1] is needed for the
    search to stay on positive dampings. *)
Theorem overshoot_of_one_or_more :
  forall (settings : InterpolatorSettings) (w : R) (fuel : nat),
    1 <= overshoot settings -> 0 < w ->
    naive_gamma settings w <= 0 /\
    hd 1 (calculate_gamma_calls settings w fuel) = naive_gamma settings w.
Proof.
  intros settings w fuel Hos Hw. split; [| reflexivity].
  unfold naive_gamma.
  pose proof (half_period_positive w Hw) as Hh.
  assert (Hln : 0 <= ln (overshoot settings)).
  { destruct Hos as [Hlt | <-].
    - left. rewrite <- ln_1. apply ln_increasing; lra.
    - rewrite ln_1. lra. }
  unfold Rdiv.
  assert (0 < / (PI * / w)) by (apply Rinv_0_lt_compat; exact Hh).
  nra.
Qed.

Lemma overshoot_of_one_or_more_witness :
  1 <= overshoot (mkSettings 2 4) /\ 0 < 1 /\
  naive_gamma (mkSettings 2 4) 1 <= 0.
Proof.
  split; [simpl; lra |]. split; [lra |].
  apply (overshoot_of_one_or_more (mkSettings 2 4) 1 0); simpl; lra.
Defined.

(** ** Where the curve meets the rest position *)

Lemma curve_at_rest_iff (w g t : R) :
  calculate_interpolation_raw w g t = 1 <-> cos (w * t) = 0.
Proof.
  unfold calculate_interpolation_raw.
  pose proof (exp_pos (- g * t)) as He.
  split; intros H.
  - assert (Hz : exp (- g * t) * cos (w * t) = 0) by lra.
    apply Rmult_integral in Hz. destruct Hz; [lra | assumption].
  - rewrite H. ring.
Qed.

Lemma whole_runs_phase (s : InterpolatorSettings) (n : nat) (t : R) (k : Z) :
  rest_position_runs s = INR n ->
  (calculate_omega s * t = IZR k * PI + PI / 2
   <-> t = (2 * IZR k + 1) / (2 * INR n + 3)).
Proof.
  intros Hn. unfold calculate_omega. cbv zeta. rewrite Hn.
  replace 0.75 with (3 / 4) by lra.
  pose proof PI_RGT_0 as Hpi. pose proof (pos_INR n) as Hn0.
  split; intros H.
  - apply Rmult_eq_reg_l with (PI * (2 * INR n + 3)); [| nra].
    replace (PI * (2 * INR n + 3) * ((2 * IZR k + 1) / (2 * INR n + 3)))
      with (2 * (IZR k * PI + PI / 2)) by (field; lra).
    rewrite <- H. lra.
  - rewrite H. field. lra.
Qed.

(** X9: when rest_position_runs is a whole number [n], the curve of the
    derived frequency takes the rest value 1, whatever the damping, exactly at
    the times [(2 k + 1) / (2 n + 3)] for integers [k]; so it is exactly 1 at
    time 1 (the constraint x(1) = 1), and it meets the rest position
    [n + 1] times strictly between time 0 and time 1, one more than
    rest_position_runs. *)
Theorem rest_position_crossings :
  forall (s : InterpolatorSettings) (n : nat),
    rest_position_runs s = INR n ->
    (forall g t : R,
        calculate_interpolation_raw (calculate_omega s) g t = 1
        <-> exists k : Z, t = (2 * IZR k + 1) / (2 * INR n + 3)) /\
    (forall g : R, calculate_interpolation_raw (calculate_omega s) g 1 = 1) /\
    (forall k : Z,
        0 < (2 * IZR k + 1) / (2 * INR n + 3) < 1 <-> (0 <= k <= Z.of_nat n)%Z).
Proof.
  intros s n Hn.
  pose proof (pos_INR n) as Hn0.
  assert (Hall : forall g t : R,
             calculate_interpolation_raw (calculate_omega s) g t = 1
             <-> exists k : Z, t = (2 * IZR k + 1) / (2 * INR n + 3)).
  { intros g t. rewrite curve_at_rest_iff. split.
    - intros Hc. destruct (cos_eq_0_0 _ Hc) as [k Hk].
      exists k. apply (whole_runs_phase s n t k Hn). exact Hk.
    - intros [k Hk]. apply cos_eq_0_1. exists k.
      apply (whole_runs_phase s n t k Hn). exact Hk. }
  split; [exact Hall |]. split.
  - intros g. apply Hall. exists (Z.of_nat n + 1)%Z.
    rewrite plus_IZR, <- INR_IZR_INZ. field. lra.
  - intros k. rewrite INR_IZR_INZ.
    assert (Hd : 0 < 2 * IZR (Z.of_nat n) + 3)
      by (rewrite <- INR_IZR_INZ; lra).
    split.
    + intros [H1 H2].
      assert (H1' : 0 < 2 * IZR k + 1).
      { apply Rmult_lt_reg_r with (/ (2 * IZR (Z.of_nat n) + 3));
          [apply Rinv_0_lt_compat; exact Hd |].
        rewrite Rmult_0_l. exact H1. }
      assert (H2' : 2 * IZR k + 1 < 2 * IZR (Z.of_nat n) + 3).
      { apply Rmult_lt_reg_r with (/ (2 * IZR (Z.of_nat n) + 3));
          [apply Rinv_0_lt_compat; exact Hd |].
        rewrite Rinv_r by lra. exact H2. }
      assert (Ha : IZR (-1) < IZR k) by lra.
      assert (Hb : IZR k < IZR (Z.of_nat n + 1)) by (rewrite plus_IZR; lra).
      apply lt_IZR in Ha. apply lt_IZR in Hb. lia.
    + intros [H1 H2].
      apply IZR_le in H1. apply IZR_le in H2.
      split.
      * apply Rdiv_lt_0_compat; lra.
      * apply Rmult_lt_reg_r with (2 * IZR (Z.of_nat n) + 3); [exact Hd |].
        unfold Rdiv. rewrite Rmult_assoc, Rinv_l by lra. lra.
Qed.

Lemma rest_position_crossings_witness :
  rest_position_runs test_settings = INR 4 /\
  calculate_interpolation_raw (calculate_omega test_settings) 3 1 = 1.
Proof.
  assert (H : rest_position_runs test_settings = INR 4) by (simpl; lra).
  split; [exact H |].
  apply (rest_position_crossings test_settings 4 H).
Defined.

(** ** What the sampling loop keeps, for any parameters *)

Lemma sample_value_zero (p : InterpolatorParams) : sample_value p 0 = -1.
Proof.
  unfold sample_value, calculate_interpolation. rewrite interpolation_minus_one.
  simpl INR. unfold Rdiv. rewrite Rmult_0_l, !Rmult_0_r, exp_0, cos_0. lra.
Qed.

Lemma sample_step_counter_cases (p : InterpolatorParams) (st : sample_state) (k : nat) :
  (last_interpolation st * sample_value p k < 0 /\
   rest_position_counter (sample_step p st k) = (rest_position_counter st + 1)%Z) \/
  (~ last_interpolation st * sample_value p k < 0 /\
   rest_position_counter (sample_step p st k) = rest_position_counter st).
Proof.
  unfold sample_step. simpl. fold (sample_value p k).
  destruct (Rlt_dec (last_interpolation st * sample_value p k) 0) as [Hlt | Hge].
  - left. split; [exact Hlt | reflexivity].
  - right. split; [exact Hge | reflexivity].
Qed.

Lemma sample_counter_step (p : InterpolatorParams) (k : nat) :
  (rest_position_counter (sample_state_at p k)
   <= rest_position_counter (sample_state_at p (S k))
   <= rest_position_counter (sample_state_at p k) + 1)%Z.
Proof.
  rewrite sample_state_at_S.
  destruct (sample_step_counter_cases p (sample_state_at p k) k)
    as [[_ ->] | [_ ->]]; lia.
Qed.

Lemma sample_counter_mono (p : InterpolatorParams) (j k : nat) :
  (j <= k)%nat ->
  (rest_position_counter (sample_state_at p j)
   <= rest_position_counter (sample_state_at p k))%Z.
Proof.
  induction 1 as [| k Hle IH]; [lia |].
  pose proof (sample_counter_step p k). lia.
Qed.

Lemma sample_counter_first (p : InterpolatorParams) :
  rest_position_counter (sample_state_at p 1) = 0%Z.
Proof.
  rewrite sample_state_at_S.
  destruct (sample_step_counter_cases p (sample_state_at p 0) 0)
    as [[Hlt _] | [_ ->]]; [| reflexivity].
  exfalso. rewrite sample_value_zero in Hlt.
  change (last_interpolation (sample_state_at p 0)) with (-1) in Hlt. lra.
Qed.

Lemma sample_detected_grows (p : InterpolatorParams) (k : nat) :
  Rabs (detected_overshoot (sample_state_at p k))
  <= Rabs (detected_overshoot (sample_state_at p (S k))).
Proof.
  rewrite sample_state_at_S.
  destruct (sample_step_detected p (sample_state_at p k) k)
    as [[_ ->] | (_ & H & _)]; [apply Rle_refl | exact H].
Qed.

(** X10: for any parameters, after [k] iterations of the sampling loop the
    counter of sign changes is between 0 and [k - 1] (sample 0 is never
    counted); the detected overshoot is 0 as long as the counter is 0, and
    afterwards it is one of the samples taken since the counter became
    positive and has the largest absolute value among them. *)
Theorem sampling_loop_invariant :
  forall (p : InterpolatorParams) (k : nat),
    (0 <= rest_position_counter (sample_state_at p k) <= Z.of_nat (Nat.pred k))%Z /\
    (rest_position_counter (sample_state_at p k) = 0%Z ->
     detected_overshoot (sample_state_at p k) = 0) /\
    (forall j : nat,
        (j < k)%nat ->
        (0 < rest_position_counter (sample_state_at p (S j)))%Z ->
        Rabs (sample_value p j) <= Rabs (detected_overshoot (sample_state_at p k))) /\
    (detected_overshoot (sample_state_at p k) = 0 \/
     exists j : nat,
       (j < k)%nat /\
       (0 < rest_position_counter (sample_state_at p (S j)))%Z /\
       detected_overshoot (sample_state_at p k) = sample_value p j).
Proof.
  intros p k. induction k as [| k IH].
  - split; [simpl; lia |]. split; [intros _; reflexivity |].
    split; [intros j Hj; lia | left; reflexivity].
  - destruct IH as (Hc & Hz & Hmax & Hwhich).
    pose proof (sample_counter_step p k) as Hstep.
    pose proof (sample_detected_grows p k) as Hgrow.
    assert (Hdet := sample_step_detected p (sample_state_at p k) k).
    cbv zeta in Hdet. rewrite <- sample_state_at_S in Hdet.
    split; [| split; [| split]].
    + split; [lia |].
      destruct k as [| k]; [rewrite sample_counter_first; simpl; lia |].
      simpl Nat.pred in *. lia.
    + intros H0.
      destruct Hdet as [[_ Hsame] | (Hpos & _)]; [| lia].
      rewrite Hsame. apply Hz. lia.
    + intros j Hj Hcj.
      destruct (Nat.eq_dec j k) as [-> | Hne].
      * destruct Hdet as [[Hle _] | (_ & _ & H & _)]; [lia | exact H].
      * apply Rle_trans with (2 := Hgrow). apply Hmax; [lia | exact Hcj].
    + destruct Hdet as [[_ Hsame] | (Hpos & _ & _ & [Hsame | Hnew])].
      * rewrite Hsame. destruct Hwhich as [H0 | (j & Hj & Hcj & Hv)].
        -- left. exact H0.
        -- right. exists j. repeat split; [lia | exact Hcj | exact Hv].
      * rewrite Hsame. destruct Hwhich as [H0 | (j & Hj & Hcj & Hv)].
        -- left. exact H0.
        -- right. exists j. repeat split; [lia | exact Hcj | exact Hv].
      * right. exists k. repeat split; [lia | exact Hpos | exact Hnew].
Qed.

(** ** The command line visualisation *)

Lemma ms_per_frame_value : IZR ms_per_frame = 32.
Proof. reflexivity. Qed.

Lemma lround_nonneg (x : R) : 0 <= x -> lround x = Zfloor (x + / 2).
Proof.
  intros Hx. unfold lround. destruct (Rle_dec 0 x) as [_ | Hn]; [reflexivity | lra].
Qed.

Lemma lround_zero : lround 0 = 0%Z.
Proof.
  rewrite lround_nonneg by lra. apply Zfloor_eq. simpl. lra.
Qed.

Lemma lround_range (x : R) (m : Z) :
  0 <= x <= IZR m -> (0 <= lround x <= m)%Z.
Proof.
  intros [H0 Hm]. rewrite lround_nonneg by exact H0. split.
  - apply Zfloor_lub. simpl. lra.
  - assert (E : Zfloor (IZR m + / 2) = m) by (apply Zfloor_eq; lra).
    apply Z.le_trans with (Zfloor (IZR m + / 2)); [apply Zfloor_le; lra | lia].
Qed.

Lemma curve_band (w g t : R) :
  0 <= g -> 0 <= t -> 0 <= calculate_interpolation_raw w g t <= 2.
Proof.
  intros Hg Ht. unfold calculate_interpolation_raw.
  pose proof (exp_pos (- g * t)) as He0.
  assert (He1 : exp (- g * t) <= 1).
  { rewrite <- exp_0. apply exp_monotone.
    assert (0 <= g * t) by (apply Rmult_le_pos; assumption). lra. }
  destruct (COS_bound (w * t)) as [Hc1 Hc2].
  split; nra.
Qed.

Lemma frame_points_range (params : InterpolatorParams) (duration ms_running : R) :
  0 <= gamma params -> 0 <= ms_running < duration ->
  (0 <= frame_points params duration ms_running <= 300)%Z.
Proof.
  intros Hg [H0 Hlt]. unfold frame_points, calculate_interpolation.
  assert (Ht : 0 <= ms_running / duration).
  { apply Rmult_le_pos; [exact H0 |]. left. apply Rinv_0_lt_compat. lra. }
  destruct (curve_band (omega params) (gamma params) _ Hg Ht) as [Hc1 Hc2].
  apply lround_range. unfold max_points. split; [| simpl]; lra.
Qed.

Lemma frame_points_start (params : InterpolatorParams) (duration : R) :
  frame_points params duration 0 = 0%Z.
Proof.
  unfold frame_points, calculate_interpolation, calculate_interpolation_raw.
  unfold Rdiv. rewrite Rmult_0_l, !Rmult_0_r, exp_0, cos_0.
  replace (IZR max_points * (1 - 1 * 1)) with 0 by ring.
  apply lround_zero.
Qed.

(** The loop started at the tick [k] runs the ticks [k .. k + n - 1]. *)
Lemma visualize_loop_from (params : InterpolatorParams) (duration : R)
      (running_mode : bool) (n : nat) :
  forall (k fuel : nat),
    (n < fuel)%nat ->
    duration <= 32 * INR (k + n) ->
    (forall j : nat, (j < n)%nat -> 32 * INR (k + j) < duration) ->
    visualize_loop fuel params duration running_mode (32 * INR k)
    = Some (map (fun j => frame_text (frame_points params duration (32 * INR j))
                            running_mode)
              (seq k n)).
Proof.
  induction n as [| n IH]; intros k fuel Hfuel Hend Hrun.
  - destruct fuel as [| fuel]; [lia |]. simpl.
    rewrite Nat.add_0_r in Hend.
    destruct (Rlt_dec (32 * INR k) duration) as [Hlt | _]; [lra | reflexivity].
  - destruct fuel as [| fuel]; [lia |].
    change (visualize_loop (S fuel) params duration running_mode (32 * INR k))
      with (if Rlt_dec (32 * INR k) duration
            then
              match visualize_loop fuel params duration running_mode
                      (32 * INR k + IZR ms_per_frame) with
              | Some rest =>
                  Some (frame_text (frame_points params duration (32 * INR k))
                          running_mode :: rest)
              | None => None
              end
            else Some []).
    pose proof (Hrun O ltac:(lia)) as H0. rewrite Nat.add_0_r in H0.
    destruct (Rlt_dec (32 * INR k) duration) as [_ | Hn]; [| lra].
    replace (32 * INR k + IZR ms_per_frame) with (32 * INR (S k))
      by (rewrite S_INR, ms_per_frame_value; ring).
    rewrite (IH (S k) fuel).
    + reflexivity.
    + lia.
    + replace (S k + n)%nat with (k + S n)%nat by lia. exact Hend.
    + intros j Hj. replace (S k + j)%nat with (k + S j)%nat by lia.
      apply Hrun. lia.
Qed.

Lemma tick_before_last (n j : nat) : (j < n)%nat -> INR j <= INR n - 1.
Proof.
  intros Hj. replace (INR n - 1) with (INR (Nat.pred n)).
  - apply le_INR. lia.
  - destruct n as [| m]; [lia |]. rewrite S_INR. simpl. ring.
Qed.

Lemma visualize_loop_from_start (params : InterpolatorParams) (duration : R)
      (running_mode : bool) (n fuel : nat) :
  (n < fuel)%nat ->
  duration <= 32 * INR n ->
  (n <> O -> 32 * (INR n - 1) < duration) ->
  visualize_loop fuel params duration running_mode 0
  = Some (map (fun j => frame_text (frame_points params duration (32 * INR j))
                          running_mode)
            (seq 0 n)).
Proof.
  intros Hfuel Hend Hlast.
  replace 0 with (32 * INR 0) at 1 by (simpl; ring).
  apply visualize_loop_from.
  - exact Hfuel.
  - exact Hend.
  - intros j Hj. simpl Nat.add.
    assert (Hn : n <> O) by lia. specialize (Hlast Hn).
    pose proof (tick_before_last n j Hj). lra.
Qed.

(** X11: the loop of the visualisation, for parameters with gamma >= 0: when
    [n] is the number of ticks of 32 ms that start before [duration] (so
    [n = 0] when [duration <= 0]), the loop ends after [n] iterations, its
    [j]-th iteration prints [lround (150 * curve (32 j / duration))] fill
    characters followed by the line terminator of the mode, and each of
    these counts lies between 0 and 300, within the range of the [int]
    that counts the characters. *)
Theorem visualize_loop_frames :
  forall (params : InterpolatorParams) (duration : R) (running_mode : bool)
         (n fuel : nat),
    0 <= gamma params ->
    (n < fuel)%nat ->
    duration <= 32 * INR n ->
    (n <> O -> 32 * (INR n - 1) < duration) ->
    visualize_loop fuel params duration running_mode 0
    = Some (map (fun j => frame_text (frame_points params duration (32 * INR j))
                            running_mode)
              (seq 0 n)) /\
    (forall j : nat,
        (j < n)%nat ->
        (0 <= frame_points params duration (32 * INR j) <= 300)%Z).
Proof.
  intros params duration running_mode n fuel Hg Hfuel Hend Hlast. split.
  - apply visualize_loop_from_start; assumption.
  - intros j Hj. apply frame_points_range; [exact Hg |].
    assert (Hn : n <> O) by lia. specialize (Hlast Hn).
    pose proof (tick_before_last n j Hj) as Hjn.
    pose proof (pos_INR j) as Hj0.
    split; lra.
Qed.

Lemma visualize_loop_frames_witness :
  exists frames : list (list ascii),
    0 <= gamma (mkParams 3 2) /\
    visualize_loop 64 (mkParams 3 2) 2000 true 0 = Some frames /\
    length frames = 63%nat.
Proof.
  assert (E : INR 63 = 63) by (rewrite INR_IZR_INZ; reflexivity).
  eexists. split; [simpl; lra |]. split.
  - apply (visualize_loop_frames (mkParams 3 2) 2000 true 63 64).
    + simpl. lra.
    + lia.
    + rewrite E. lra.
    + intros _. rewrite E. lra.
  - rewrite length_map, length_seq. reflexivity.
Defined.

Lemma frame_count (duration : R) :
  duration <= 32 * INR (Z.to_nat (Zceil (duration / 32))) /\
  (Z.to_nat (Zceil (duration / 32)) <> O ->
   32 * (INR (Z.to_nat (Zceil (duration / 32))) - 1) < duration).
Proof.
  destruct (Zceil_bound (duration / 32)) as [Hlo Hhi].
  set (c := Zceil (duration / 32)) in *.
  destruct (Z_le_gt_dec c 0) as [Hc | Hc].
  - assert (Hz : Z.to_nat c = O) by lia. rewrite Hz. simpl.
    apply IZR_le in Hc. split; [lra | intros H; contradiction].
  - rewrite INR_IZR_INZ, Z2Nat.id by lia. split; [lra | intros _; lra].
Qed.

(** X12: [visualize_interpolation_cli] on settings with overshoot in (0, 1)
    and rest_position_runs >= 0: it returns, it prints one line per tick of
    32 ms below [duration] (that is [ceil (duration / 32)] lines, none when
    [duration <= 0]), every line is between 0 and 300 fill characters followed
    by the terminator of the mode, and the first line has no fill
    character. *)
Theorem visualization_output :
  forall (s : InterpolatorSettings) (duration : R) (running_mode : bool),
    0 < overshoot s < 1 -> 0 <= rest_position_runs s ->
    exists (fuel : nat) (frames : list (list ascii)),
      visualize_interpolation_cli fuel s duration running_mode = Some frames /\
      length frames = Z.to_nat (Zceil (duration / 32)) /\
      Forall (fun text =>
                exists m : nat,
                  (m <= 300)%nat /\
                  text = repeat "#"%char m
                         ++ [if running_mode then "010"%char else "013"%char])
             frames /\
      (forall text : list ascii,
          hd_error frames = Some text ->
          text = [if running_mode then "010"%char else "013"%char]).
Proof.
  intros s duration running_mode Hos Hr.
  destruct (calculate_params_terminates s Hos Hr) as (fuel1 & p & Hp & Hg & _).
  destruct (frame_count duration) as [Hend Hlast].
  set (n := Z.to_nat (Zceil (duration / 32))) in *.
  exists (Nat.max fuel1 (S n)).
  exists (map (fun j => frame_text (frame_points p duration (32 * INR j)) running_mode)
            (seq 0 n)).
  split; [| split; [| split]].
  - unfold visualize_interpolation_cli.
    rewrite (calculate_params_fuel_mono fuel1 _ s p Hp) by lia.
    apply visualize_loop_from_start; [lia | exact Hend | exact Hlast].
  - rewrite length_map, length_seq. reflexivity.
  - apply Forall_forall. intros text Hin.
    apply in_map_iff in Hin. destruct Hin as (j & <- & Hj).
    apply in_seq in Hj.
    assert (Hn : n <> O) by lia. specialize (Hlast Hn).
    pose proof (tick_before_last n j ltac:(lia)) as Hle.
    pose proof (pos_INR j) as Hj0.
    destruct (frame_points_range p duration (32 * INR j)) as [Hp0 Hp1];
      [lra | lra |].
    exists (Z.to_nat (frame_points p duration (32 * INR j))).
    split; [lia | reflexivity].
  - intros text Hhd. destruct n as [| m]; [discriminate |].
    simpl in Hhd. injection Hhd as <-.
    rewrite Rmult_0_r, frame_points_start. reflexivity.
Qed.

Lemma visualization_output_witness :
  0 < overshoot typical_mobile_animation < 1 /\
  0 <= rest_position_runs typical_mobile_animation /\
  exists (fuel : nat) (frames : list (list ascii)),
    visualize_interpolation_cli fuel typical_mobile_animation 2000 true
    = Some frames /\
    length frames = Z.to_nat (Zceil (2000 / 32)).
Proof.
  assert (H1 : 0 < overshoot typical_mobile_animation < 1) by (simpl; lra).
  assert (H2 : 0 <= rest_position_runs typical_mobile_animation) by (simpl; lra).
  split; [exact H1 |]. split; [exact H2 |].
  destruct (visualization_output typical_mobile_animation 2000 true H1 H2)
    as (fuel & frames & Hrun & Hlen & _).
  exists fuel, frames. split; assumption.
Defined.

(** ** The resolution of the search *)

Lemma peak_continuous (w a : R) :
  0 < w -> 0 < a -> continuity_pt (fun x => interpolation_at w x) a.
Proof.
  intros Hw Ha.
  unfold interpolation_at, calculate_interpolation_raw, calculate_turning_time.
  cbv zeta. reg.
  - nra.
  - lra.
  - apply derivable_continuous_pt, derivable_pt_atan.
Qed.

(** Between a damping with the peak above the target and a larger one with
    the peak below it lies a damping that reaches the target exactly. *)
Lemma exact_damping_between (os w lo hi : R) :
  0 < w -> 0 < lo -> lo < hi ->
  os < interpolation_at w lo -> interpolation_at w hi < os ->
  exists z : R, lo < z < hi /\ interpolation_at w z = os.
Proof.
  intros Hw Hlo Hlt Hab Hbe.
  destruct (IVT_interv (fun x => os - interpolation_at w x) lo hi) as (z & Hz & Hfz).
  - intros a Ha.
    apply (continuity_pt_minus (fun _ => os) (fun x => interpolation_at w x)).
    + apply continuity_pt_const. intros x y. reflexivity.
    + apply peak_continuous; lra.
  - exact Hlt.
  - lra.
  - lra.
  - exists z. split; [| lra].
    destruct Hz as [[Hz1 | Hz1] [Hz2 | Hz2]]; try subst z; lra.
Qed.

Section SearchResolution.

Variable settings : InterpolatorSettings.
Variable w : R.
Hypothesis Hos : 0 < overshoot settings < 1.
Hypothesis Hw : 0 < w.

(** The returned damping, or the one a step before it, has its peak above
    the target; the one a step after it has its peak below. *)
Lemma search_result_bracket (fuel : nat) (g : R) :
  calculate_gamma settings w fuel = Some g ->
  interpolation_at w (g + 1 * precision) < overshoot settings /\
  (overshoot settings < interpolation_at w g \/
   (0 < g - 1 * precision /\
    overshoot settings < interpolation_at w (g - 1 * precision))).
Proof.
  intros H.
  destruct (calculate_gamma_result settings w Hos Hw fuel g H) as (_ & Hnext & _).
  split; [exact Hnext |].
  unfold calculate_gamma in H. rewrite (search_sign_up settings w Hos Hw) in H.
  destruct (tune_returns _ _ _ _ _ _ H) as (k & st' & _ & Hs & _ & ->).
  destruct (state_after_chain _ _ _ _ _ _ (initial_state_tracked settings w) Hs)
    as (_ & Hg' & Hch).
  change (st_gamma (initial_state settings w)) with (naive_gamma settings w) in *.
  pose proof precision_positive as Hp.
  pose proof (naive_gamma_positive settings w Hos Hw) as Hg0.
  destruct k as [| k].
  - left. simpl in Hg'. rewrite Hg'.
    apply naive_peak_above_target; assumption.
  - right.
    pose proof (Hch k (Nat.lt_succ_diag_r k)) as Hdec.
    rewrite <- Hg' in Hdec. simpl in Hg'.
    pose proof (candidate_up k (naive_gamma settings w)) as Hup.
    set (gp := candidate k 1 (naive_gamma settings w)) in *.
    replace (st_gamma st' - 1 * precision) with gp by (rewrite Hg'; ring).
    split; [lra |].
    destruct (Rlt_le_dec (overshoot settings) (interpolation_at w gp))
      as [Hlt | Hle]; [exact Hlt | exfalso].
    assert (Hlt : interpolation_at w (st_gamma st') < interpolation_at w gp)
      by (rewrite Hg'; apply peak_decreasing; auto; lra).
    rewrite (deviation_below settings w gp) in Hdec by exact Hle.
    rewrite (deviation_below settings w) in Hdec by lra. lra.
Qed.

End SearchResolution.

(** X13: the constant [precision] is the precision of the returned gamma:
    for ordinary settings, [0.001 <= overshoot <= 0.99] and
    [0 <= rest_position_runs <= 1000], there is a damping whose peak is
    exactly the requested overshoot, and the damping the search returns is
    less than one step of 0.01 away from it. *)
Theorem search_gamma_precision :
  forall (settings : InterpolatorSettings) (fuel : nat) (g : R),
    0.001 <= overshoot settings <= 0.99 ->
    0 <= rest_position_runs settings <= 1000 ->
    calculate_gamma settings (calculate_omega settings) fuel = Some g ->
    exists exact : R,
      0 < exact /\
      interpolation_at (calculate_omega settings) exact = overshoot settings /\
      Rabs (g - exact) < precision.
Proof.
  intros settings fuel g Hrange [Hr _] H.
  assert (Hos : 0 < overshoot settings < 1) by lra.
  pose proof (calculate_omega_positive settings Hr) as Hw.
  set (w := calculate_omega settings) in *.
  destruct (search_result_bracket settings w Hos Hw fuel g H) as [Hnext Hprev].
  destruct (calculate_gamma_result settings w Hos Hw fuel g H) as (Hge & _ & _).
  pose proof (naive_gamma_positive settings w Hos Hw) as Hg0.
  pose proof precision_positive as Hp.
  destruct Hprev as [Habove | [Hpos Habove]].
  - destruct (exact_damping_between (overshoot settings) w g (g + 1 * precision))
      as (z & Hz & Hpz); try assumption; try lra.
    exists z. split; [lra |]. split; [exact Hpz |].
    apply Rabs_def1; lra.
  - destruct (exact_damping_between (overshoot settings) w
                (g - 1 * precision) (g + 1 * precision))
      as (z & Hz & Hpz); try assumption; try lra.
    exists z. split; [lra |]. split; [exact Hpz |].
    apply Rabs_def1; lra.
Qed.

Lemma search_gamma_precision_witness :
  exists (fuel : nat) (g exact : R),
    calculate_gamma test_settings (calculate_omega test_settings) fuel = Some g /\
    interpolation_at (calculate_omega test_settings) exact = overshoot test_settings /\
    Rabs (g - exact) < precision.
Proof.
  destruct (calculate_gamma_terminates test_settings (calculate_omega test_settings)
              (proj1 test_settings_valid)
              (calculate_omega_positive _ (proj2 test_settings_valid)))
    as (fuel & g & H).
  destruct (search_gamma_precision test_settings fuel g) as (exact & _ & Hpeak & Hnear).
  - simpl. lra.
  - simpl. lra.
  - exact H.
  - exists fuel, g, exact. repeat split; assumption.
Defined.

(** ** Half periods *)

(** X14: the naive damping of [calculate_gamma] is the one for which the
    curve, at the estimated time [PI / omega], is exactly [1 + overshoot]
    (for omega > 0 and any overshoot > 0). *)
Theorem naive_gamma_reaches_target :
  forall (settings : InterpolatorSettings) (w : R),
    0 < overshoot settings -> 0 < w ->
    calculate_interpolation_raw w (naive_gamma settings w) (PI / w)
    = 1 + overshoot settings.
Proof.
  intros settings w Hos Hw.
  rewrite (half_period_value w Hw). f_equal.
  unfold naive_gamma. cbv zeta.
  replace (- (- ln (overshoot settings) / (PI / w)) * (PI / w))
    with (ln (overshoot settings)).
  - apply exp_ln. exact Hos.
  - field. split; [lra | apply PI_neq0].
Qed.

Lemma naive_gamma_reaches_target_witness :
  0 < overshoot test_settings /\ 0 < 3 /\
  calculate_interpolation_raw 3 (naive_gamma test_settings 3) (PI / 3)
  = 1 + overshoot test_settings.
Proof.
  split; [simpl; lra |]. split; [lra |].
  apply (naive_gamma_reaches_target test_settings 3); simpl; lra.
Defined.

(** X15: half a period later the distance of the curve from its rest
    position has changed sign and shrunk by the factor
    [exp (- gamma PI / omega)] (for omega > 0). *)
Theorem half_period_decay :
  forall w g t : R,
    0 < w ->
    calculate_interpolation_raw w g (t + PI / w) - 1
    = - exp (- g * (PI / w)) * (calculate_interpolation_raw w g t - 1).
Proof.
  intros w g t Hw. rewrite !interpolation_minus_one.
  replace (w * (t + PI / w)) with (w * t + PI) by (field; lra).
  rewrite neg_cos.
  replace (- g * (t + PI / w)) with (- g * t + - g * (PI / w)) by ring.
  rewrite exp_plus. ring.
Qed.

Lemma half_period_decay_witness :
  0 < 3 /\
  calculate_interpolation_raw 3 2 (1 + PI / 3) - 1
  = - exp (- (2) * (PI / 3)) * (calculate_interpolation_raw 3 2 1 - 1).
Proof.
  split; [lra |]. apply (half_period_decay 3 2 1). lra.
Defined.

(** ** The downward branch of the search *)

(** X16: the loop of [calculate_gamma] has no guard on the sign of gamma.
    When it runs with the direction -1 (lines 143-145 take it whenever the
    seed peak is not above the target), its first iteration calls
    [calculate_turning_time] with the naive damping minus one step, and this
    damping is negative as soon as the overshoot is above
    [exp (- 0.01 PI / omega)]. *)
Theorem downward_search_first_call :
  forall (settings : InterpolatorSettings) (w : R) (fuel : nat),
    0 < w ->
    exp (- (precision * (PI / w))) < overshoot settings ->
    naive_gamma settings w - precision < 0 /\
    exists rest : list R,
      tune_calls settings w (S fuel) (-1) (initial_state settings w)
      = (naive_gamma settings w - precision) :: rest.
Proof.
  intros settings w fuel Hw Hos.
  pose proof (half_period_positive w Hw) as Hh.
  pose proof (exp_pos (- (precision * (PI / w)))) as He.
  pose proof PI_RGT_0 as Hpi.
  split.
  - assert (Hln : - (precision * (PI / w)) < ln (overshoot settings)).
    { rewrite <- (ln_exp (- (precision * (PI / w)))).
      apply ln_increasing; assumption. }
    unfold naive_gamma. cbv zeta.
    apply Rmult_lt_reg_r with (PI / w); [exact Hh |].
    replace ((- ln (overshoot settings) / (PI / w) - precision) * (PI / w))
      with (- ln (overshoot settings) - precision * (PI / w)) by (field; lra).
    lra.
  - simpl tune_calls. unfold tuned_gamma_of.
    change (st_gamma (initial_state settings w)) with (naive_gamma settings w).
    eexists. f_equal. ring.
Qed.

Lemma downward_search_first_call_witness :
  0 < calculate_omega (mkSettings 0.9999999999 4) /\
  naive_gamma (mkSettings 0.9999999999 4)
    (calculate_omega (mkSettings 0.9999999999 4)) - precision < 0.
Proof.
  assert (Hw : 0 < calculate_omega (mkSettings 0.9999999999 4))
    by (apply calculate_omega_positive; simpl; lra).
  split; [exact Hw |].
  apply (downward_search_first_call (mkSettings 0.9999999999 4) _ O Hw).
  pose proof (half_period_positive _ Hw) as Hh.
  set (x := precision * (PI / calculate_omega (mkSettings 0.9999999999 4))) in *.
  assert (Hx : 1 / 1000 <= x).
  { unfold x, calculate_omega, precision. cbv zeta. simpl rest_position_runs.
    pose proof PI_RGT_0 as Hpi.
    replace 0.75 with (3 / 4) by lra.
    replace (PI / (2 * PI * (4 / 2 + 3 / 4))) with (2 / 11) by (field; lra).
    lra. }
  rewrite exp_Ropp. simpl overshoot.
  apply Rle_lt_trans with (/ (1 + x)).
  - apply Rinv_le_contravar; [lra | apply exp_ineq1_le].
  - apply Rle_lt_trans with (/ (1 + 1 / 1000)).
    + apply Rinv_le_contravar; lra.
    + replace (/ (1 + 1 / 1000)) with (1000 / 1001) by (field; lra). lra.
Defined.
